(** * The crawl queue viewer of browsertrix-cloud

    A shallow embedding of
    [frontend/src/features/archived-items/crawl-queue.ts]: the Lit
    component [CrawlQueue], which polls the queue endpoint of a running
    crawl, highlights the URLs the server reports as matching a pattern and
    strikes through the URLs covered by the exclusion rules.

    The component is asynchronous. Its methods are embedded as functions on
    the component's fields and on the part of the browser they touch (pending
    timers, queries in flight, the toasts shown); an [await] splits a method
    in the part that runs before it and the part that runs when the awaited
    promise settles. *)

From Stdlib Require DecimalString DecimalZ DecimalPos.
From stdpp Require Import gmap strings list fin_maps pretty.

Open Scope Z_scope.

(** ** The regular expression engine

    [RegExp] is the engine of the JavaScript runtime. The component uses two
    of its operations: the constructor [new RegExp(x)], which throws a
    [SyntaxError] on a malformed pattern, and [rx.test(url)]. The patterns are
    built without flags, so [test] keeps no state between calls. *)

Class RegExpEngine := {
  RegExp : Type;
  SyntaxError : Type;
  newRegExp : string → RegExp + SyntaxError;
  test : RegExp → string → bool;
}.

(** ** Data *)

(** [type Pages = string[]] *)
Definition Pages := list string.

(** [type ResponseData = { total; results; matched }] *)
Record ResponseData := {
  total : Z;
  results : Pages;
  matched : Pages;
}.

(** [AuthState] is declared in [@/utils/AuthService]; the component only hands
    it to [apiFetch]. *)
Definition AuthState := string.

(** [const POLL_INTERVAL_SECONDS = 5] *)
Definition POLL_INTERVAL_SECONDS : Z := 5.

(** What a method leaves behind: it returns, or it throws [e]; in both cases
    the fields are as the method left them. *)
Inductive Outcome (S Err : Type) :=
  | Returned (s : S)
  | Thrown (e : Err) (s : S).
Arguments Returned {S Err} s.
Arguments Thrown {S Err} e s.

(** [PropertyValues]: the map Lit passes to [willUpdate] and [updated]. Only
    its keys are read, through [has]. *)
Definition has (changedProperties : gset string) (key : string) : bool :=
  bool_decide (key ∈ changedProperties).
Global Arguments has : simpl never.

Section Component.
Context `{Engine : RegExpEngine}.

(** The fields of [class CrawlQueue]. A field declared with [?] is
    [undefined] until it is set. *)
Record CrawlQueue := {
  authState : option AuthState;
  orgId : option string;
  crawlId : option string;
  matchedTotal : option Z;
  regex : string;
  exclusions : option (list string);
  exclusionsRx : list RegExp;
  queue : option ResponseData;
  isLoading : bool;
  pageSize : Z;
  timerId : option nat;
}.

Definition set_exclusionsRx (v : list RegExp) (c : CrawlQueue) : CrawlQueue :=
  {| authState := authState c; orgId := orgId c; crawlId := crawlId c;
     matchedTotal := matchedTotal c; regex := regex c;
     exclusions := exclusions c; exclusionsRx := v; queue := queue c;
     isLoading := isLoading c; pageSize := pageSize c; timerId := timerId c |}.

Definition set_queue (v : option ResponseData) (c : CrawlQueue) : CrawlQueue :=
  {| authState := authState c; orgId := orgId c; crawlId := crawlId c;
     matchedTotal := matchedTotal c; regex := regex c;
     exclusions := exclusions c; exclusionsRx := exclusionsRx c; queue := v;
     isLoading := isLoading c; pageSize := pageSize c; timerId := timerId c |}.

Definition set_isLoading (v : bool) (c : CrawlQueue) : CrawlQueue :=
  {| authState := authState c; orgId := orgId c; crawlId := crawlId c;
     matchedTotal := matchedTotal c; regex := regex c;
     exclusions := exclusions c; exclusionsRx := exclusionsRx c;
     queue := queue c; isLoading := v; pageSize := pageSize c;
     timerId := timerId c |}.

Definition set_pageSize (v : Z) (c : CrawlQueue) : CrawlQueue :=
  {| authState := authState c; orgId := orgId c; crawlId := crawlId c;
     matchedTotal := matchedTotal c; regex := regex c;
     exclusions := exclusions c; exclusionsRx := exclusionsRx c;
     queue := queue c; isLoading := isLoading c; pageSize := v;
     timerId := timerId c |}.

Definition set_timerId (v : option nat) (c : CrawlQueue) : CrawlQueue :=
  {| authState := authState c; orgId := orgId c; crawlId := crawlId c;
     matchedTotal := matchedTotal c; regex := regex c;
     exclusions := exclusions c; exclusionsRx := exclusionsRx c;
     queue := queue c; isLoading := isLoading c; pageSize := pageSize c;
     timerId := v |}.

(** The field initialisers of the class. *)
Definition initial : CrawlQueue :=
  {| authState := None; orgId := None; crawlId := None;
     matchedTotal := None; regex := ""; exclusions := Some [];
     exclusionsRx := []; queue := None; isLoading := false;
     pageSize := 50; timerId := None |}.

(** ** The exclusion matcher *)

(** [this.exclusions.map((x) => new RegExp(x))]: the patterns are compiled
    from left to right and the first [SyntaxError] leaves [map]. *)
Fixpoint map_newRegExp (xs : list string) : list RegExp + SyntaxError :=
  match xs with
  | [] => inl []
  | x :: rest =>
      match newRegExp x with
      | inr e => inr e
      | inl rx =>
          match map_newRegExp rest with
          | inr e => inr e
          | inl rxs => inl (rx :: rxs)
          end
      end
  end.

(** [updated(changedProperties)] *)
Definition updated (changedProperties : gset string) (c : CrawlQueue)
  : Outcome CrawlQueue SyntaxError :=
  if has changedProperties "exclusions" then
    match exclusions c with
    | Some xs =>
        match map_newRegExp xs with
        | inl rxs => Returned (set_exclusionsRx rxs c)
        | inr e => Thrown e c
        end
    | None => Returned (set_exclusionsRx [] c)
    end
  else Returned c.

(** The loop of [isExcluded(url)] over [this.exclusionsRx]. *)
Fixpoint isExcluded_loop (rxs : list RegExp) (url : string) : bool :=
  match rxs with
  | [] => false
  | rx :: rest => if test rx url then true else isExcluded_loop rest url
  end.

Definition isExcluded (c : CrawlQueue) (url : string) : bool :=
  isExcluded_loop (exclusionsRx c) url.

(** ** Rendering *)

(** [Array.prototype.some] *)
Fixpoint some {A} (p : A → bool) (xs : list A) : bool :=
  match xs with
  | [] => false
  | v :: rest => if p v then true else some p rest
  end.

(** One [<btrix-numbered-list-item>]: the class and text of the marker, the
    class and target of the link. *)
Record ListItem := {
  marker_class : string;
  marker : Z;
  link_class : string;
  href : string;
}.

Inductive Footer := EndOfQueue | LoadMoreButton.

Inductive Content :=
  | Spinner
  | NoPagesQueued
  | QueueList (items : list ListItem) (footer : Footer).

Definition class_matched : string := "text-red-500 hover:text-red-400".
Definition class_excluded : string :=
  "text-gray-500 hover:text-gray-400 line-through".
Definition class_queued : string := "text-blue-500 hover:text-blue-400".

(** The two constants of the arrow function in [renderContent]. *)
Definition isMatch_of (q : ResponseData) (url : string) : bool :=
  some (λ v, bool_decide (v = url)) (matched q).

Definition isExcluded_of (c : CrawlQueue) (q : ResponseData) (url : string)
  : bool :=
  negb (isMatch_of q url) && isExcluded c url.

(** The body of the arrow function in [renderContent], at [(url, idx)]. *)
Definition renderItem (c : CrawlQueue) (q : ResponseData)
    (url : string) (idx : nat) : ListItem :=
  let isMatch := isMatch_of q url in
  let isExcluded := isExcluded_of c q url in
  {| marker_class := if isMatch then "text-red-600" else "";
     marker := Z.of_nat idx + 1;
     link_class :=
       if isMatch then class_matched
       else if isExcluded then class_excluded
       else class_queued;
     href := url |}.

(** [renderContent()]. [!this.queue?.total] holds when there is no snapshot
    and when its total is 0; past that test [this.queue] is defined, so the
    bare [return] after it is never taken. *)
Definition renderContent (c : CrawlQueue) : Content :=
  match queue c with
  | None => if isLoading c then Spinner else NoPagesQueued
  | Some q =>
      if bool_decide (total q = 0) then
        if isLoading c then Spinner else NoPagesQueued
      else
        QueueList (imap (λ idx url, renderItem c q url idx) (results q))
          (if bool_decide (total q = Z.of_nat (length (results q)))
           then EndOfQueue else LoadMoreButton)
  end.

(** ** Polling *)

(** The query [getQueue] hands to [apiFetch]: the two identifiers of the path
    [/orgs/${orgId}/crawls/${crawlId}/queue], the entries of the
    [URLSearchParams] in their order, and the credentials. *)
Record Request := {
  req_orgId : option string;
  req_crawlId : option string;
  req_params : list (string * string);
  req_auth : option AuthState;
}.

(** [Number.prototype.toString] at an integer: its decimal numeral, with a
    minus sign before it for a negative integer. *)
Definition Number_toString (n : Z) : string :=
  DecimalString.NilZero.string_of_int (Z.to_int n).

(** The integer a decimal numeral stands for, as the endpoint reads [offset]
    and [count]; [None] when the string is no numeral. *)
Definition decimal_value (s : string) : option Z :=
  Z.of_int <$> DecimalString.NilZero.int_of_string s.

(** [URLSearchParams.get(name)]: the value of the first entry with that
    name. *)
Fixpoint param (name : string) (params : list (string * string))
  : option string :=
  match params with
  | [] => None
  | (k, v) :: rest => if bool_decide (k = name) then Some v else param name rest
  end.

(** [getQueue()], up to the [await]. *)
Definition getQueue (c : CrawlQueue) : Request :=
  let offset := "0" in
  let count := Number_toString (pageSize c) in
  let regex := regex c in
  {| req_orgId := orgId c;
     req_crawlId := crawlId c;
     req_params := [("offset", offset); ("count", count); ("regex", regex)];
     req_auth := authState c |}.

(** What [apiFetch] rejects with: an [Error], of which [fetchQueue] reads the
    [message]. *)
Record Error := { message : string }.

(** The argument of [notify]. *)
Record Toast := {
  toast_message : string;
  variant : string;
  icon : string;
}.

(** Who awaits a call of [fetchQueue]: [fetchOnUpdate], which resets
    [isLoading] afterwards, or the timer callback, which awaits nothing. *)
Inductive Caller := ByUpdate | ByTimer.

(** The component and the part of the browser it acts on. Times are in
    milliseconds. [hasUpdated] is the field of that name Lit keeps for the
    element: false until its first update cycle is over. [timers] maps the id
    of each pending timeout to the time it is due; [inflight] holds the
    queries [apiFetch] has not settled yet, each with the caller its
    [fetchQueue] returns to. *)
Record World := {
  component : CrawlQueue;
  hasUpdated : bool;
  now : Z;
  timers : gmap nat Z;
  next_timer : nat;
  inflight : gmap nat (Request * Caller);
  next_query : nat;
  toasts : list Toast;
  uncaught : list SyntaxError;
}.

Definition set_component (f : CrawlQueue → CrawlQueue) (w : World) : World :=
  {| component := f (component w); hasUpdated := hasUpdated w;
     now := now w; timers := timers w;
     next_timer := next_timer w; inflight := inflight w;
     next_query := next_query w; toasts := toasts w; uncaught := uncaught w |}.

Definition set_now (t : Z) (w : World) : World :=
  {| component := component w; hasUpdated := hasUpdated w; now := t;
     timers := timers w;
     next_timer := next_timer w; inflight := inflight w;
     next_query := next_query w; toasts := toasts w; uncaught := uncaught w |}.

Definition set_timers (m : gmap nat Z) (n : nat) (w : World) : World :=
  {| component := component w; hasUpdated := hasUpdated w;
     now := now w; timers := m;
     next_timer := n; inflight := inflight w;
     next_query := next_query w; toasts := toasts w; uncaught := uncaught w |}.

Definition set_inflight (m : gmap nat (Request * Caller)) (n : nat) (w : World)
  : World :=
  {| component := component w; hasUpdated := hasUpdated w;
     now := now w; timers := timers w;
     next_timer := next_timer w; inflight := m;
     next_query := n; toasts := toasts w; uncaught := uncaught w |}.

Definition set_hasUpdated (b : bool) (w : World) : World :=
  {| component := component w; hasUpdated := b; now := now w;
     timers := timers w; next_timer := next_timer w; inflight := inflight w;
     next_query := next_query w; toasts := toasts w; uncaught := uncaught w |}.

Definition set_toasts (l : list Toast) (w : World) : World :=
  {| component := component w; hasUpdated := hasUpdated w;
     now := now w; timers := timers w;
     next_timer := next_timer w; inflight := inflight w;
     next_query := next_query w; toasts := l; uncaught := uncaught w |}.

Definition set_uncaught (l : list SyntaxError) (w : World) : World :=
  {| component := component w; hasUpdated := hasUpdated w;
     now := now w; timers := timers w;
     next_timer := next_timer w; inflight := inflight w;
     next_query := next_query w; toasts := toasts w; uncaught := l |}.

(** [window.clearInterval(id)]. Timeouts and intervals share one table of
    ids, so it cancels a pending timeout; an id that is [undefined] or
    no longer pending is ignored. *)
Definition clearInterval (id : option nat) (w : World) : World :=
  match id with
  | Some i => set_timers (delete i (timers w)) (next_timer w) w
  | None => w
  end.

(** [window.setTimeout(callback, delay)]: the new id and the world with the
    timeout pending. The callback is always [() => void this.fetchQueue()]. *)
Definition setTimeout (delay : Z) (w : World) : nat * World :=
  let id := next_timer w in
  (id, set_timers (<[id := now w + delay]> (timers w)) (S id) w).

(** [this.notify(...)] *)
Definition notify (t : Toast) (w : World) : World :=
  set_toasts (toasts w ++ [t]) w.

Definition fetch_failed_toast : Toast :=
  {| toast_message := "Sorry, couldn't fetch crawl queue at this time.";
     variant := "danger";
     icon := "exclamation-octagon" |}.

(** [fetchQueue()] up to [await this.getQueue()]: the query leaves. *)
Definition fetchQueue_call (by_ : Caller) (w : World) : World :=
  let q := next_query w in
  set_inflight (<[q := (getQueue (component w), by_)]> (inflight w)) (S q) w.

(** [fetchQueue()] from the [await] on: the [try] block when the query
    resolved with [data], the [catch] block when it rejected with [e]. *)
Definition fetchQueue_resume (r : ResponseData + Error) (w : World) : World :=
  match r with
  | inl data =>
      let w := set_component (set_queue (Some data)) w in
      let '(id, w) := setTimeout (POLL_INTERVAL_SECONDS * 1000) w in
      set_component (set_timerId (Some id)) w
  | inr e =>
      if bool_decide (message e ≠ "invalid_regex")
      then notify fetch_failed_toast w
      else w
  end.

(** [fetchOnUpdate()] up to [await this.performUpdate]; this part runs
    inside [willUpdate]. *)
Definition fetchOnUpdate_call (w : World) : World :=
  clearInterval (timerId (component w)) w.

(** [fetchOnUpdate()] between its two [await]s. The awaited
    [this.performUpdate] is a method, not a promise, so this part runs as
    soon as the update cycle that called [willUpdate] is over. *)
Definition fetchOnUpdate_resume (w : World) : World :=
  fetchQueue_call ByUpdate (set_component (set_isLoading true) w).

(** What runs when [fetchQueue] has returned to its caller. *)
Definition fetchQueue_return (by_ : Caller) (w : World) : World :=
  match by_ with
  | ByUpdate => set_component (set_isLoading false) w
  | ByTimer => w
  end.

(** The condition of [willUpdate]. *)
Definition fetches (changedProperties : gset string) : bool :=
  has changedProperties "authState"
  || has changedProperties "orgId"
  || has changedProperties "crawlId"
  || has changedProperties "pageSize"
  || has changedProperties "regex".

(** [willUpdate(changedProperties)] *)
Definition willUpdate (changedProperties : gset string) (w : World) : World :=
  if fetches changedProperties then fetchOnUpdate_call w else w.

(** [updated] as Lit calls it, after it has set [hasUpdated]: an exception
    it throws is not caught by the component. *)
Definition didUpdate (changedProperties : gset string) (w : World) : World :=
  let w := set_hasUpdated true w in
  match updated changedProperties (component w) with
  | Returned c => set_component (λ _, c) w
  | Thrown e c => set_uncaught (uncaught w ++ [e]) (set_component (λ _, c) w)
  end.

(** One update cycle of Lit: [willUpdate], rendering, [updated], and then
    the rest of [fetchOnUpdate] when [willUpdate] has called it. *)
Definition performUpdate (changedProperties : gset string) (w : World) : World :=
  let w := willUpdate changedProperties w in
  let w := didUpdate changedProperties w in
  if fetches changedProperties then fetchOnUpdate_resume w else w.

(** [loadMore()] *)
Definition loadMore (c : CrawlQueue) : CrawlQueue :=
  set_pageSize (pageSize c + 50) c.

(** [disconnectedCallback()] *)
Definition disconnectedCallback (w : World) : World :=
  clearInterval (timerId (component w)) w.

(** *** What happens to the component *)

(** The host element assigns a property. *)
Inductive Assignment :=
  | Set_authState (v : option AuthState)
  | Set_orgId (v : option string)
  | Set_crawlId (v : option string)
  | Set_matchedTotal (v : option Z)
  | Set_regex (v : string)
  | Set_exclusions (v : option (list string)).

(** The setter Lit generates for a property: it stores the value and enters
    the key in [changedProperties] when the value is not identical to the old
    one. An object or an array handed over is a new reference. *)
Definition assign (a : Assignment) (st : CrawlQueue * gset string)
  : CrawlQueue * gset string :=
  let '(c, ch) := st in
  match a with
  | Set_authState v =>
      ({| authState := v; orgId := orgId c; crawlId := crawlId c;
          matchedTotal := matchedTotal c; regex := regex c;
          exclusions := exclusions c; exclusionsRx := exclusionsRx c;
          queue := queue c; isLoading := isLoading c; pageSize := pageSize c;
          timerId := timerId c |}, {["authState"]} ∪ ch)
  | Set_orgId v =>
      ({| authState := authState c; orgId := v; crawlId := crawlId c;
          matchedTotal := matchedTotal c; regex := regex c;
          exclusions := exclusions c; exclusionsRx := exclusionsRx c;
          queue := queue c; isLoading := isLoading c; pageSize := pageSize c;
          timerId := timerId c |},
       if bool_decide (v = orgId c) then ch else {["orgId"]} ∪ ch)
  | Set_crawlId v =>
      ({| authState := authState c; orgId := orgId c; crawlId := v;
          matchedTotal := matchedTotal c; regex := regex c;
          exclusions := exclusions c; exclusionsRx := exclusionsRx c;
          queue := queue c; isLoading := isLoading c; pageSize := pageSize c;
          timerId := timerId c |},
       if bool_decide (v = crawlId c) then ch else {["crawlId"]} ∪ ch)
  | Set_matchedTotal v =>
      ({| authState := authState c; orgId := orgId c; crawlId := crawlId c;
          matchedTotal := v; regex := regex c;
          exclusions := exclusions c; exclusionsRx := exclusionsRx c;
          queue := queue c; isLoading := isLoading c; pageSize := pageSize c;
          timerId := timerId c |},
       if bool_decide (v = matchedTotal c) then ch else {["matchedTotal"]} ∪ ch)
  | Set_regex v =>
      ({| authState := authState c; orgId := orgId c; crawlId := crawlId c;
          matchedTotal := matchedTotal c; regex := v;
          exclusions := exclusions c; exclusionsRx := exclusionsRx c;
          queue := queue c; isLoading := isLoading c; pageSize := pageSize c;
          timerId := timerId c |},
       if bool_decide (v = regex c) then ch else {["regex"]} ∪ ch)
  | Set_exclusions v =>
      ({| authState := authState c; orgId := orgId c; crawlId := crawlId c;
          matchedTotal := matchedTotal c; regex := regex c;
          exclusions := v; exclusionsRx := exclusionsRx c;
          queue := queue c; isLoading := isLoading c; pageSize := pageSize c;
          timerId := timerId c |}, {["exclusions"]} ∪ ch)
  end.

(** The keys the field initialisers of the class have entered in
    [changedProperties] when the element is constructed: each of [regex],
    [exclusions], [exclusionsRx], [isLoading] and [pageSize] is set from
    [undefined] to its initial value. *)
Definition first_changed : gset string :=
  {["regex"; "exclusions"; "exclusionsRx"; "isLoading"; "pageSize"]}.

(** The keys already in [changedProperties] when the host assigns: those of
    the initialisers until the first update cycle is over, none after. *)
Definition pending_changes (hasUpdated : bool) : gset string :=
  if hasUpdated then ∅ else first_changed.

(** The assignments of the host before one update cycle, on top of the keys
    that are pending. *)
Definition assign_all (l : list Assignment) (c : CrawlQueue)
    (pending : gset string) : CrawlQueue * gset string :=
  foldl (λ st a, assign a st) (c, pending) l.

(** The assignments of the host in world [w]. *)
Definition assigned (l : list Assignment) (w : World)
  : CrawlQueue * gset string :=
  assign_all l (component w) (pending_changes (hasUpdated w)).

(** What happens to the element. [Assign l] is the host assigning the
    properties of [l], followed by the update cycle Lit runs for them; the
    first [Assign] of a session is the element being connected with these
    properties set (none when [l] is empty), and its update cycle is the
    first one. *)
Inductive Event :=
  | Assign (l : list Assignment)
  | ClickLoadMore
  | TimerFires (id : nat)
  | Settles (q : nat) (r : ResponseData + Error)
  | Elapse (ms : Z)
  | Disconnect.

(** The load-more button is there only when the queue is shown and is not
    at its end. *)
Definition shows_load_more (c : CrawlQueue) : bool :=
  match renderContent c with
  | QueueList _ LoadMoreButton => true
  | _ => false
  end.

(** One event; [None] when it cannot happen in [w]. The load-more button
    can be used when it has been rendered, a timer fires when it is pending
    and due, a query settles when it is in flight. *)
Definition step (ev : Event) (w : World) : option World :=
  match ev with
  | Assign l =>
      let '(c, changed) := assigned l w in
      Some (performUpdate changed (set_component (λ _, c) w))
  | ClickLoadMore =>
      if hasUpdated w && shows_load_more (component w)
      then Some (performUpdate {["pageSize"]} (set_component loadMore w))
      else None
  | TimerFires id =>
      match timers w !! id with
      | Some due =>
          if bool_decide (due ≤ now w)
          then Some (fetchQueue_call ByTimer
                       (set_timers (delete id (timers w)) (next_timer w) w))
          else None
      | None => None
      end
  | Settles q r =>
      match inflight w !! q with
      | Some (_, by_) =>
          Some (fetchQueue_return by_
                  (fetchQueue_resume r
                     (set_inflight (delete q (inflight w)) (next_query w) w)))
      | None => None
      end
  | Elapse ms =>
      if bool_decide (0 ≤ ms) then Some (set_now (now w + ms) w) else None
  | Disconnect => Some (disconnectedCallback w)
  end.

Fixpoint run (evs : list Event) (w : World) : option World :=
  match evs with
  | [] => Some w
  | ev :: rest =>
      match step ev w with
      | Some w' => run rest w'
      | None => None
      end
  end.

(** The element as constructed: the fields have their initial values, the
    first update cycle is still to come, no timer is pending and no query is
    in flight. *)
Definition world0 : World :=
  {| component := initial; hasUpdated := false; now := 0; timers := ∅;
     next_timer := 0;
     inflight := ∅; next_query := 0; toasts := []; uncaught := [] |}.

(** *** Runs *)

Definition reachable (w : World) : Prop := ∃ evs, run evs world0 = Some w.

(** The ids of pending timers and of queries in flight have been handed
    out already. *)
Definition ids_below (w : World) : Prop :=
  (∀ q, is_Some (inflight w !! q) → (q < next_query w)%nat)
  ∧ (∀ id, is_Some (timers w !! id) → (id < next_timer w)%nat).

(** The events whose update cycle calls [fetchOnUpdate]. *)
Definition refetches (ev : Event) (w : World) : bool :=
  match ev with
  | Assign l => fetches (assigned l w).2
  | ClickLoadMore => true
  | _ => false
  end.

(** The events that come from the browser alone, not from the user or the
    host element. *)
Definition passive (ev : Event) : bool :=
  match ev with
  | TimerFires _ | Settles _ _ | Elapse _ => true
  | _ => false
  end.

(** At most one poll is under way, in flight or waiting on its timer, and
    the component knows the timer. *)
Definition sequential (w : World) : Prop :=
  (size (inflight w) + size (timers w) ≤ 1)%nat
  ∧ ∀ id, is_Some (timers w !! id) → timerId (component w) = Some id.

(** An event that refetches is calm when it finds no query in flight; a run
    is calm when each of its events is. *)
Definition calm (ev : Event) (w : World) : Prop :=
  refetches ev w = true → inflight w = ∅.

Fixpoint calm_run (evs : list Event) (w : World) : Prop :=
  match evs with
  | [] => True
  | ev :: rest =>
      calm ev w
      ∧ match step ev w with
        | Some w' => calm_run rest w'
        | None => True
        end
  end.

End Component.

(** ** An engine for closed examples

    Patterns without metacharacters: in JavaScript such a pattern matches
    the strings that contain it. The engine accepts these patterns and
    rejects every other one, naming it in the error; the one rejected pattern
    the examples below use is the unbalanced ["("], which JavaScript rejects
    as well. *)

Definition metacharacter (a : Ascii.ascii) : bool :=
  some (λ m, bool_decide (m = a))
    (String.list_ascii_of_string "\^$.|?*+()[]{}").

Fixpoint literal (p : string) : bool :=
  match p with
  | EmptyString => true
  | String a rest => negb (metacharacter a) && literal rest
  end.

Fixpoint occurs (p s : string) : bool :=
  if String.prefix p s then true
  else match s with
       | EmptyString => false
       | String _ rest => occurs p rest
       end.

Definition LiteralEngine : RegExpEngine :=
  {| RegExp := string;
     SyntaxError := string;
     newRegExp := λ p, if literal p then inl p else inr p;
     test := occurs |}.

(** ** Sample sessions *)

(** The world after a list of events, from the component as constructed and
    with the engine above. *)
Definition after (evs : list Event) : World :=
  default world0 (run (Engine := LiteralEngine) evs world0).

(** The host opens the viewer on a crawl. *)
Definition open_viewer : Event :=
  Assign
    [Set_authState (Some "token"); Set_orgId (Some "org");
     Set_crawlId (Some "crawl")].

(** The user types a pattern. *)
Definition type_regex (r : string) : Event :=
  Assign [Set_regex r].

(** The host hands over exclusion rules. *)
Definition set_rules (l : list string) : Event :=
  Assign [Set_exclusions (Some l)].

(** A snapshot of a queue of three URLs, the first two in the window, the
    second one matched. *)
Definition sample_snapshot : ResponseData :=
  {| total := 3;
     results := ["https://a.com"; "https://ads.com/1"];
     matched := ["https://ads.com/1"] |}.

(** What the endpoint answers for the same queue when no pattern is given. *)
Definition unfiltered_snapshot : ResponseData :=
  {| total := 3;
     results := ["https://a.com"; "https://ads.com/1"];
     matched := [] |}.

Definition network_error : Error := {| message := "Failed to fetch" |}.

(** The query of the sample sessions for pattern [r] and page size [n]. *)
Definition sample_query (r : string) (n : Z) : Request :=
  {| req_orgId := Some "org";
     req_crawlId := Some "crawl";
     req_params :=
       [("offset", "0"); ("count", Number_toString n); ("regex", r)];
     req_auth := Some "token" |}.

(** One poll after the other: the first query resolves, its timer fires
    when due, the second query resolves, and its timer becomes due. *)
Definition two_polls : list Event :=
  [open_viewer; Settles 0 (inl sample_snapshot); Elapse 5000; TimerFires 0;
   Settles 1 (inl sample_snapshot); Elapse 5000].

(** The user types a pattern while the first query is in flight; the answer
    to the second query arrives before the answer to the first. *)
Definition typing_while_loading : list Event :=
  [open_viewer; type_regex "ads"; Settles 1 (inl sample_snapshot)].

(** The same, and then the answer to the first query arrives: the queue
    shown has no matched URL though the pattern matches one of its URLs. *)
Definition stale_after_typing : list Event :=
  typing_while_loading ++ [Settles 0 (inl unfiltered_snapshot)].

(** The viewer with rules that cover a matched URL, its queue shown. *)
Definition viewer_with_rules : list Event :=
  [open_viewer; set_rules ["ads"]; Settles 0 (inl sample_snapshot)].

(** A store with the one crawl of the spec's scenario. *)
Definition sample_store : gmap string (list string) :=
  {["c1" := ["https://a.com"; "https://b.com"; "https://ads.com/1"]]}.

(** ** The queue endpoint *)

Module QueueStore.
Section Store.
Context `{Engine : RegExpEngine}.

Inductive QueryError :=
  | InvalidPattern (e : SyntaxError)
  | NotFound.

(** Modelled from the spec: the backend operation
    [snapshot(crawlId, offset, count, pattern?)] of the Queue Store, which
    the endpoint [GET /orgs/{orgId}/crawls/{crawlId}/queue] serves and whose
    code is not part of the frontend sources. The store keeps, per crawl, the
    queued URLs in insertion order. The snapshot has the number of all queued
    URLs, the window of [count] URLs from [offset] on, and, for a non-empty
    pattern, all URLs of the queue that match it; an unknown crawl fails with
    [NotFound], a pattern that does not compile with [InvalidPattern]. *)
Definition snapshot (store : gmap string (list string)) (crawlId : string)
    (offset count : nat) (pattern : string) : ResponseData + QueryError :=
  match store !! crawlId with
  | None => inr NotFound
  | Some urls =>
      let page := take count (drop offset urls) in
      if bool_decide (pattern = "") then
        inl {| total := Z.of_nat (length urls); results := page;
               matched := [] |}
      else
        match newRegExp pattern with
        | inr e => inr (InvalidPattern e)
        | inl rx =>
            inl {| total := Z.of_nat (length urls); results := page;
                   matched := filter (λ u, test rx u = true) urls |}
        end
  end.

End Store.
End QueueStore.

(** ** The badges of the heading *)

Section Badges.
Context `{Engine : RegExpEngine}.

(** [Number.prototype.toLocaleString], which follows the locale of the
    browser. *)
Variable toLocaleString : Z → string.

(** What [renderBadge] puts beside the heading: the badge of the queue and,
    when there is one, the badge of the matched total. *)
Record Badges := {
  queue_badge : string;
  matched_badge : option string;
}.

(** [renderBadge()]; [None] is the empty string it returns without a
    snapshot. A count is falsy when it is 0, and [matchedTotal] also when
    it is [undefined]. *)
Definition renderBadge (c : CrawlQueue) : option Badges :=
  match queue c with
  | None => None
  | Some q =>
      Some
        {| queue_badge :=
             if bool_decide (total q = 0) then "No queue"
             else if bool_decide (1 < total q)
                  then toLocaleString (total q) +:+ " URLs"
                  else "1 URL";
           matched_badge :=
             match matchedTotal c with
             | None => None
             | Some n =>
                 if bool_decide (n = 0) then None
                 else Some (if bool_decide (1 < n)
                            then "-" +:+ toLocaleString n +:+ " URLs"
                            else "-1 URL")
             end |}
  end.

End Badges.

(** ** Kinds of events *)

(** A call of [loadMore]. *)
Definition is_load_more (ev : Event) : bool :=
  match ev with
  | ClickLoadMore => true
  | _ => false
  end.

(** Time passing, a timer firing, a query resolving: what a session sees
    while it is left alone and the endpoint answers. *)
Definition keeps_polling (ev : Event) : bool :=
  match ev with
  | Elapse _ | TimerFires _ | Settles _ (inl _) => true
  | _ => false
  end.

(** A query that fails with an error other than the invalid-regex one. *)
Definition alarming (ev : Event) : bool :=
  match ev with
  | Settles _ (inr e) => bool_decide (message e ≠ "invalid_regex")
  | _ => false
  end.


Section Counting.
Context `{Engine : RegExpEngine}.

(** The polls under way: queries in flight and timers pending. *)
Definition polls (w : World) : nat := (size (inflight w) + size (timers w))%nat.

End Counting.

(** ** The markdown editor

    The second component of the file, [class MarkdownEditor]. The editor
    widget comes from [@wysimark/standalone]; of a widget the model keeps the
    markdown it was created with. *)

Module MarkdownEditor.

Record MarkdownEditor := {
  initialValue : string;
  name : string;
  maxlength : option Z;
  value : string;
  editors : list string;
}.

(** The field initialisers of the class. *)
Definition initial : MarkdownEditor :=
  {| initialValue := ""; name := "markdown"; maxlength := None; value := "";
     editors := [] |}.

(** [initEditor()]: one call of [createWysimark], with
    [initialMarkdown: this.initialValue]. *)
Definition initEditor (e : MarkdownEditor) : MarkdownEditor :=
  {| initialValue := initialValue e; name := name e;
     maxlength := maxlength e; value := value e;
     editors := editors e ++ [initialValue e] |}.

(** [updated(changedProperties)]; the empty string is falsy. *)
Definition updated (changedProperties : gset string) (e : MarkdownEditor)
  : MarkdownEditor :=
  if has changedProperties "initialValue"
     && negb (bool_decide (initialValue e = ""))
  then initEditor
         {| initialValue := initialValue e; name := name e;
            maxlength := maxlength e; value := initialValue e;
            editors := editors e |}
  else e.

(** [firstUpdated()] *)
Definition firstUpdated (e : MarkdownEditor) : MarkdownEditor :=
  if bool_decide (initialValue e = "") then initEditor e else e.

(** The [onChange] callback of the widget, up to its [await]: the markdown
    of the widget becomes the value. *)
Definition onChange (markdown : string) (e : MarkdownEditor) : MarkdownEditor :=
  {| initialValue := initialValue e; name := name e;
     maxlength := maxlength e; value := markdown; editors := editors e |}.

(** The host assigns [initialValue]; the key is entered in
    [changedProperties] when the string differs from the old one. *)
Definition set_initialValue (v : string) (e : MarkdownEditor)
  : MarkdownEditor * gset string :=
  ({| initialValue := v; name := name e; maxlength := maxlength e;
      value := value e; editors := editors e |},
   if bool_decide (v = initialValue e) then ∅ else {["initialValue"]}).

(** The first update cycle of the element: Lit calls [firstUpdated] and then
    [updated]. *)
Definition first_cycle (changedProperties : gset string) (e : MarkdownEditor)
  : MarkdownEditor :=
  updated changedProperties (firstUpdated e).

(** A later update cycle, after the host has assigned [initialValue]. *)
Definition reassign (v : string) (e : MarkdownEditor) : MarkdownEditor :=
  let '(e', changed) := set_initialValue v e in updated changed e'.

End MarkdownEditor.

(** * Properties *)

(** ** The exclusion matcher and the rendering *)

Section Matcher.
Context `{Engine : RegExpEngine}.

Lemma some_true {A} (p : A → bool) (xs : list A) :
  some p xs = true ↔ ∃ v, v ∈ xs ∧ p v = true.
Proof.
  induction xs as [|x xs IH]; simpl.
  - split; [done | intros (v & Hv & _); by apply elem_of_nil in Hv].
  - destruct (p x) eqn:Hx.
    + split; [| done]. intros _. exists x. split; [left | done].
    + rewrite IH. split; intros (v & Hv & Hp).
      * exists v. split; [by right | done].
      * apply elem_of_cons in Hv as [-> | Hv]; [congruence | eauto].
Qed.

Lemma isExcluded_loop_true (rxs : list RegExp) (url : string) :
  isExcluded_loop rxs url = true ↔ ∃ rx, rx ∈ rxs ∧ test rx url = true.
Proof.
  induction rxs as [|rx rxs IH]; simpl.
  - split; [done | intros (v & Hv & _); by apply elem_of_nil in Hv].
  - destruct (test rx url) eqn:Hx.
    + split; [| done]. intros _. exists rx. split; [left | done].
    + rewrite IH. split; intros (v & Hv & Hp).
      * exists v. split; [by right | done].
      * apply elem_of_cons in Hv as [-> | Hv]; [congruence | eauto].
Qed.

Lemma isMatch_of_true (q : ResponseData) (url : string) :
  isMatch_of q url = true ↔ url ∈ matched q.
Proof.
  unfold isMatch_of. rewrite some_true. split.
  - intros (v & Hv & Heq). apply bool_decide_eq_true in Heq. by subst.
  - intros Hin. exists url. split; [done | by apply bool_decide_eq_true].
Qed.

Lemma map_newRegExp_inl (xs : list string) (rxs : list RegExp) :
  map_newRegExp xs = inl rxs ↔ Forall2 (λ p rx, newRegExp p = inl rx) xs rxs.
Proof.
  revert rxs. induction xs as [|x xs IH]; intros rxs; simpl.
  - split.
    + intros [= <-]. constructor.
    + intros H. by inversion H.
  - destruct (newRegExp x) as [rx|e] eqn:Hx.
    + destruct (map_newRegExp xs) as [rs|e] eqn:Hxs.
      * split.
        -- intros [= <-]. constructor; [done | by apply IH].
        -- intros H. inversion H as [|? rx' ? rs' Hrx Hrest]; subst.
           apply IH in Hrest. congruence.
      * split; [done |].
        intros H. inversion H as [|? rx' ? rs' Hrx Hrest]; subst.
        apply IH in Hrest. congruence.
    + split; [done |].
      intros H. inversion H; subst. congruence.
Qed.

Lemma map_newRegExp_inr (xs : list string) (e : SyntaxError) :
  map_newRegExp xs = inr e ↔
  ∃ good bad rest, xs = good ++ bad :: rest ∧
    Forall (λ p, ∃ rx, newRegExp p = inl rx) good ∧ newRegExp bad = inr e.
Proof.
  revert e. induction xs as [|x xs IH]; intros e; simpl.
  - split; [done |]. intros (good & bad & rest & Heq & _).
    by destruct good.
  - destruct (newRegExp x) as [rx|e'] eqn:Hx.
    + split.
      * destruct (map_newRegExp xs) as [rs|e''] eqn:Hxs; [done |].
        intros [= ->].
        destruct (proj1 (IH e) eq_refl) as (good & bad & rest & -> & Hg & Hb).
        exists (x :: good), bad, rest. repeat split; [| done].
        constructor; eauto.
      * intros (good & bad & rest & Heq & Hgood & Hbad).
        destruct good as [|g good]; simplify_eq/=; [congruence |].
        apply Forall_cons in Hgood as [_ Hgood].
        rewrite (proj2 (IH e)); [done |]. eauto 6.
    + split.
      * intros [= ->]. exists [], x, xs. repeat split; [constructor | done].
      * intros (good & bad & rest & Heq & Hgood & Hbad).
        destruct good as [|g good]; simplify_eq/=; [congruence |].
        apply Forall_cons in Hgood as [(rx & Hrx) _]. congruence.
Qed.

Lemma lookup_renderContent (c : CrawlQueue) items footer i it :
  renderContent c = QueueList items footer →
  items !! i = Some it →
  ∃ q url, queue c = Some q ∧ results q !! i = Some url
           ∧ it = renderItem c q url i.
Proof.
  unfold renderContent. intros Hr Hi.
  destruct (queue c) as [q|]; [| by destruct (isLoading c)].
  destruct (bool_decide (total q = 0)); [by destruct (isLoading c) |].
  injection Hr as <- _.
  apply list_lookup_imap_Some in Hi as (url & Hu & ->).
  by exists q, url.
Qed.

(** C5: an entry of the displayed list whose URL is in the matched array
    of the snapshot carries the class of a match and not the class of an
    excluded URL, whatever the exclusion rules say; an entry shown as
    excluded has its URL outside the matched array. *)
Theorem matched_excludes_excluded (c : CrawlQueue) items footer i it :
  renderContent c = QueueList items footer →
  items !! i = Some it →
  ∃ q url, queue c = Some q ∧ results q !! i = Some url ∧ href it = url
    ∧ (isMatch_of q url && isExcluded_of c q url) = false
    ∧ (url ∈ matched q →
         link_class it = class_matched ∧ link_class it ≠ class_excluded)
    ∧ (link_class it = class_excluded →
         (url ∉ matched q) ∧ isExcluded c url = true).
Proof.
  intros Hr Hi.
  destruct (lookup_renderContent c items footer i it Hr Hi)
    as (q & url & Hq & Hu & ->).
  exists q, url. repeat split; try done.
  - unfold isExcluded_of. by destruct (isMatch_of q url).
  - apply isMatch_of_true in H. simpl. by rewrite H.
  - apply isMatch_of_true in H. simpl. by rewrite H.
  - rewrite <- isMatch_of_true. simpl in H. unfold isExcluded_of in H.
    destruct (isMatch_of q url); [done | by intros ?].
  - simpl in H. unfold isExcluded_of in H.
    destruct (isMatch_of q url); [done |].
    simpl in H. by destruct (isExcluded c url).
Qed.

(** C6: [isExcluded] answers true exactly when some pattern of the compiled
    set matches the URL, and the answer is the same for every other order of
    the same patterns. *)
Theorem isExcluded_any_pattern (c c' : CrawlQueue) (url : string) :
  exclusionsRx c' ≡ₚ exclusionsRx c →
  (isExcluded c url = true ↔ ∃ rx, rx ∈ exclusionsRx c ∧ test rx url = true)
  ∧ isExcluded c' url = isExcluded c url.
Proof.
  intros Hperm. split; [apply isExcluded_loop_true |].
  unfold isExcluded.
  destruct (isExcluded_loop (exclusionsRx c) url) eqn:Hc.
  - apply isExcluded_loop_true in Hc as (rx & Hin & Ht).
    apply isExcluded_loop_true. exists rx. by rewrite Hperm.
  - destruct (isExcluded_loop (exclusionsRx c') url) eqn:Hc'; [| done].
    apply isExcluded_loop_true in Hc' as (rx & Hin & Ht).
    rewrite Hperm in Hin.
    assert (isExcluded_loop (exclusionsRx c) url = true) as Habs; [| congruence].
    apply isExcluded_loop_true. eauto.
Qed.

(** C8: when [updated] sees changed exclusions, either every pattern compiles
    and the matcher of the component it returns is the list of their compiled
    forms, one per pattern and in order, or [updated] throws the error of the
    first pattern that does not compile and leaves the component, its matcher
    included, as it was. *)
Theorem updated_all_or_nothing (changed : gset string) (c : CrawlQueue)
    (pats : list string) :
  has changed "exclusions" = true →
  exclusions c = Some pats →
  ((∀ p, p ∈ pats → ∃ rx, newRegExp p = inl rx) →
     ∃ rxs c', Forall2 (λ p rx, newRegExp p = inl rx) pats rxs
            ∧ updated changed c = Returned c'
            ∧ c' = set_exclusionsRx rxs c
            ∧ exclusionsRx c' = rxs
            ∧ length (exclusionsRx c') = length pats)
  ∧ ((∃ p e, p ∈ pats ∧ newRegExp p = inr e) →
     ∃ good bad rest e, pats = good ++ bad :: rest
       ∧ Forall (λ p, ∃ rx, newRegExp p = inl rx) good
       ∧ newRegExp bad = inr e
       ∧ updated changed c = Thrown e c).
Proof.
  intros Hhas Hex. unfold updated. rewrite Hhas, Hex.
  destruct (map_newRegExp pats) as [rxs|e] eqn:Hmap.
  - apply map_newRegExp_inl in Hmap. split.
    + intros _. exists rxs, (set_exclusionsRx rxs c).
      split; [done |]. split; [done |]. split; [done |]. split; [done |].
      cbn. symmetry. by eapply Forall2_length.
    + intros (p & e & Hin & Hp).
      apply list_elem_of_lookup in Hin as (i & Hi).
      destruct (Forall2_lookup_l _ _ _ _ _ Hmap Hi) as (rx & _ & Hrx).
      congruence.
  - apply map_newRegExp_inr in Hmap as (good & bad & rest & -> & Hg & Hb).
    split.
    + intros Hall. destruct (Hall bad) as (rx & Hrx); [| congruence].
      apply elem_of_app. right. left.
    + intros _. exists good, bad, rest, e. done.
Qed.

(** C10: an entry is highlighted as a match exactly when its URL is equal to
    an element of the matched array of the snapshot; the pattern the
    component holds plays no part in it, so a URL that this pattern matches
    and that is not in the matched array is not highlighted. *)
Theorem highlight_is_membership (c : CrawlQueue) items footer i it :
  renderContent c = QueueList items footer →
  items !! i = Some it →
  ∃ q url, queue c = Some q ∧ results q !! i = Some url
    ∧ (link_class it = class_matched ↔ url ∈ matched q)
    ∧ (marker_class it = "text-red-600" ↔ url ∈ matched q)
    ∧ (∀ rx, newRegExp (regex c) = inl rx → test rx url = true →
         url ∉ matched q →
         link_class it ≠ class_matched ∧ marker_class it = "").
Proof.
  intros Hr Hi.
  destruct (lookup_renderContent c items footer i it Hr Hi)
    as (q & url & Hq & Hu & ->).
  exists q, url. rewrite <- isMatch_of_true. simpl.
  split; [done |]. split; [done |].
  destruct (isMatch_of q url) eqn:Hm.
  - split; [done |]. split; [done |]. intros rx _ _ Hno.
    destruct Hno. by apply isMatch_of_true.
  - assert ((if isExcluded_of c q url then class_excluded else class_queued)
            ≠ class_matched) as Hother
      by (by destruct (isExcluded_of c q url)).
    split; [by split |]. split; [by split |]. by intros rx _ _ _.
Qed.

End Matcher.

(** ** Polling *)

Section Polling.
Context `{Engine : RegExpEngine}.

Ltac unfold_methods :=
  unfold performUpdate, willUpdate, didUpdate, fetchOnUpdate_call,
    fetchOnUpdate_resume, fetchQueue_call, fetchQueue_resume,
    fetchQueue_return, disconnectedCallback, clearInterval, setTimeout,
    notify, set_component, set_now, set_timers, set_inflight, set_toasts,
    set_uncaught, set_queue, set_isLoading, set_timerId, set_pageSize,
    loadMore in *.

(** [updated] touches no field but [exclusionsRx]. *)
Lemma updated_fields (changed : gset string) (c : CrawlQueue) :
  ∃ rxs, match updated changed c with
         | Returned c' | Thrown _ c' => c' = set_exclusionsRx rxs c
         end.
Proof.
  unfold updated.
  destruct (has changed "exclusions");
    [destruct (exclusions c) as [xs|];
       [destruct (map_newRegExp xs) as [rxs|e] |] |];
    first [by eexists | exists (exclusionsRx c); by destruct c].
Qed.

Lemma didUpdate_world (changed : gset string) (w : World) :
  let w' := didUpdate changed w in
  (∃ rxs, component w' = set_exclusionsRx rxs (component w))
  ∧ timers w' = timers w ∧ next_timer w' = next_timer w
  ∧ inflight w' = inflight w ∧ next_query w' = next_query w
  ∧ now w' = now w ∧ toasts w' = toasts w.
Proof.
  unfold didUpdate. cbn [set_hasUpdated component].
  destruct (updated_fields changed (component w)) as [rxs Hrxs].
  destruct (updated changed (component w)) as [c'|e c']; subst c';
    (split; [by exists rxs | done]).
Qed.

(** What an update cycle that refetches does to the browser: the timer the
    component remembers is cancelled, one query leaves, built from the
    fields as the cycle leaves them. *)
Lemma performUpdate_fetch (changed : gset string) (w : World) :
  fetches changed = true →
  let w' := performUpdate changed w in
  timers w' = match timerId (component w) with
              | Some i => delete i (timers w)
              | None => timers w
              end
  ∧ next_timer w' = next_timer w
  ∧ inflight w'
    = <[next_query w := (getQueue (component w'), ByUpdate)]> (inflight w)
  ∧ next_query w' = S (next_query w)
  ∧ now w' = now w ∧ toasts w' = toasts w.
Proof.
  intros Hf. unfold performUpdate, willUpdate. rewrite Hf.
  destruct (didUpdate_world changed (fetchOnUpdate_call w))
    as (_ & Ht & Hnt & Hi & Hnq & Hn & Hto).
  unfold fetchOnUpdate_resume, fetchQueue_call. cbn.
  rewrite Ht, Hnt, Hi, Hnq, Hn, Hto.
  unfold fetchOnUpdate_call, clearInterval.
  by destruct (timerId (component w)).
Qed.

Lemma performUpdate_idle (changed : gset string) (w : World) :
  fetches changed = false →
  let w' := performUpdate changed w in
  timers w' = timers w ∧ next_timer w' = next_timer w
  ∧ inflight w' = inflight w ∧ next_query w' = next_query w
  ∧ now w' = now w ∧ toasts w' = toasts w.
Proof.
  intros Hf. unfold performUpdate, willUpdate. rewrite Hf.
  by destruct (didUpdate_world changed w) as (_ & H).
Qed.

(** Fields an update cycle leaves alone. *)
Lemma performUpdate_fields (changed : gset string) (w : World) :
  let c := component w in
  let c' := component (performUpdate changed w) in
  timerId c' = timerId c ∧ pageSize c' = pageSize c ∧ regex c' = regex c
  ∧ queue c' = queue c ∧ orgId c' = orgId c ∧ crawlId c' = crawlId c
  ∧ authState c' = authState c.
Proof.
  unfold performUpdate, willUpdate.
  destruct (fetches changed).
  - destruct (didUpdate_world changed (fetchOnUpdate_call w))
      as ((rxs & Hc) & _).
    unfold fetchOnUpdate_resume, fetchQueue_call. cbn. rewrite Hc.
    unfold fetchOnUpdate_call, clearInterval.
    destruct (timerId (component w)) eqn:Hid; cbn; by rewrite ?Hid.
  - destruct (didUpdate_world changed w) as ((rxs & Hc) & _).
    cbn. by rewrite Hc.
Qed.

(** Fields the setters of the properties leave alone. *)
Lemma assign_fields (a : Assignment) (c : CrawlQueue) (ch : gset string) :
  timerId (assign a (c, ch)).1 = timerId c
  ∧ pageSize (assign a (c, ch)).1 = pageSize c
  ∧ queue (assign a (c, ch)).1 = queue c.
Proof. by destruct a. Qed.

Lemma assign_all_fields (l : list Assignment) (c : CrawlQueue)
    (pending : gset string) :
  timerId (assign_all l c pending).1 = timerId c
  ∧ pageSize (assign_all l c pending).1 = pageSize c
  ∧ queue (assign_all l c pending).1 = queue c.
Proof.
  unfold assign_all.
  revert c pending.
  induction l as [|a l IH]; intros c ch; cbn [foldl]; [done |].
  destruct (assign_fields a c ch) as (Ht & Hp & Hq).
  destruct (assign a (c, ch)) as [c1 ch1].
  destruct (IH c1 ch1) as (Ht' & Hp' & Hq').
  cbn [fst] in *. repeat split; congruence.
Qed.

(** What the rest of [fetchQueue] and the return to its caller do, by the
    way the query settled. *)
Lemma settle_world (r : ResponseData + Error) (by_ : Caller) (w : World) :
  let w' := fetchQueue_return by_ (fetchQueue_resume r w) in
  inflight w' = inflight w ∧ next_query w' = next_query w ∧ now w' = now w
  ∧ pageSize (component w') = pageSize (component w)
  ∧ regex (component w') = regex (component w)
  ∧ match r with
    | inl data =>
        timers w'
        = <[next_timer w := now w + POLL_INTERVAL_SECONDS * 1000]> (timers w)
        ∧ next_timer w' = S (next_timer w)
        ∧ timerId (component w') = Some (next_timer w)
        ∧ queue (component w') = Some data
        ∧ toasts w' = toasts w
    | inr e =>
        timers w' = timers w ∧ next_timer w' = next_timer w
        ∧ timerId (component w') = timerId (component w)
        ∧ queue (component w') = queue (component w)
    end.
Proof.
  destruct r as [data|e], by_; cbn;
    try destruct (bool_decide (message e ≠ "invalid_regex")); done.
Qed.

Lemma assigned_fields (l : list Assignment) (w : World) :
  timerId (assigned l w).1 = timerId (component w)
  ∧ pageSize (assigned l w).1 = pageSize (component w)
  ∧ queue (assigned l w).1 = queue (component w).
Proof. apply assign_all_fields. Qed.

(** The shape of each step. *)
Lemma step_Assign (l : list Assignment) (w w' : World) :
  step (Assign l) w = Some w' →
  w' = performUpdate (assigned l w).2
         (set_component (λ _, (assigned l w).1) w).
Proof.
  unfold step. destruct (assigned l w) as [c ch]. by intros [= <-].
Qed.

Lemma step_ClickLoadMore (w w' : World) :
  step ClickLoadMore w = Some w' →
  w' = performUpdate {["pageSize"]} (set_component loadMore w).
Proof.
  unfold step.
  destruct (hasUpdated w && shows_load_more (component w)); by intros [= <-].
Qed.

Lemma fetches_pageSize : fetches {["pageSize"]} = true.
Proof. by vm_compute. Qed.

Lemma step_TimerFires (id : nat) (w w' : World) :
  step (TimerFires id) w = Some w' →
  ∃ due, timers w !! id = Some due ∧ due ≤ now w
    ∧ w' = fetchQueue_call ByTimer
             (set_timers (delete id (timers w)) (next_timer w) w).
Proof.
  cbn. destruct (timers w !! id) as [due|]; [| done].
  destruct (bool_decide_reflect (due ≤ now w)); [| done].
  intros [= <-]. by exists due.
Qed.

Lemma step_Settles (q : nat) (r : ResponseData + Error) (w w' : World) :
  step (Settles q r) w = Some w' →
  ∃ req by_, inflight w !! q = Some (req, by_)
    ∧ w' = fetchQueue_return by_
             (fetchQueue_resume r
                (set_inflight (delete q (inflight w)) (next_query w) w)).
Proof.
  cbn. destruct (inflight w !! q) as [[req by_]|]; [| done].
  intros [= <-]. by exists req, by_.
Qed.

(** A refetching event, seen from the browser. *)
Lemma step_refetch (ev : Event) (w w' : World) :
  refetches ev w = true →
  step ev w = Some w' →
  timers w' = match timerId (component w) with
              | Some i => delete i (timers w)
              | None => timers w
              end
  ∧ next_timer w' = next_timer w
  ∧ inflight w'
    = <[next_query w := (getQueue (component w'), ByUpdate)]> (inflight w)
  ∧ next_query w' = S (next_query w)
  ∧ timerId (component w') = timerId (component w).
Proof.
  intros Hre Hstep. destruct ev; try done; cbn in Hre.
  - apply step_Assign in Hstep. subst w'.
    pose proof (assigned_fields l w) as (Hid & _).
    set (w1 := set_component _ w).
    destruct (performUpdate_fetch _ w1 Hre) as (Ht & Hnt & Hi & Hnq & _).
    destruct (performUpdate_fields (assigned l w).2 w1)
      as (Hid' & _).
    cbn in *. rewrite Hid in Ht. rewrite Hid' , Hid. done.
  - apply step_ClickLoadMore in Hstep. subst w'.
    set (w1 := set_component _ w).
    destruct (performUpdate_fetch _ w1 fetches_pageSize)
      as (Ht & Hnt & Hi & Hnq & _).
    destruct (performUpdate_fields {["pageSize"]} w1) as (Hid' & _).
    cbn in *. done.
Qed.

Lemma step_ids_below (ev : Event) (w w' : World) :
  ids_below w → step ev w = Some w' → ids_below w'.
Proof.
  intros [Hq Ht] Hstep.
  destruct (refetches ev w) eqn:Hre.
  { destruct (step_refetch ev w w' Hre Hstep) as (Ht' & Hnt & Hi & Hnq & _).
    split.
    - intros q. rewrite Hi, Hnq. intros Hs.
      destruct (decide (q = next_query w)) as [-> | Hne]; [lia |].
      rewrite lookup_insert_ne in Hs by done. apply Hq in Hs. lia.
    - intros id. rewrite Ht', Hnt. intros Hs. apply Ht.
      destruct (timerId (component w)) as [i|]; [| done].
      destruct (decide (i = id)) as [-> | Hne].
      + rewrite lookup_delete_eq in Hs. by destruct Hs.
      + by rewrite lookup_delete_ne in Hs. }
  destruct ev.
  - apply step_Assign in Hstep. subst w'. cbn in Hre.
    destruct (performUpdate_idle _
                (set_component (λ _, (assigned l w).1) w) Hre)
      as (Ht' & Hnt & Hi & Hnq & _).
    split; intros k; rewrite ?Hi, ?Hnq, ?Ht', ?Hnt; [apply Hq | apply Ht].
  - done.
  - apply step_TimerFires in Hstep as (due & Hdue & _ & ->). split; cbn.
    + intros q Hs.
      destruct (decide (q = next_query w)) as [-> | Hne]; [lia |].
      rewrite lookup_insert_ne in Hs by done. apply Hq in Hs. lia.
    + intros k Hs. apply Ht.
      destruct (decide (id = k)) as [-> | Hne]; [by eauto |].
      by rewrite lookup_delete_ne in Hs.
  - apply step_Settles in Hstep as (req & by_ & Hin & ->).
    set (w1 := set_inflight _ _ w).
    destruct (settle_world r by_ w1) as (Hi & Hnq & _ & _ & _ & Hr).
    split.
    + intros k. rewrite Hi, Hnq. cbn. intros Hs. apply Hq.
      destruct (decide (q = k)) as [-> | Hne]; [by eauto |].
      by rewrite lookup_delete_ne in Hs.
    + intros k Hs. destruct r as [data|e].
      * destruct Hr as (Ht' & Hnt & _). rewrite Ht' in Hs. rewrite Hnt. cbn.
        cbn in Hs.
        destruct (decide (k = next_timer w)) as [-> | Hne]; [lia |].
        rewrite lookup_insert_ne in Hs by done. apply Ht in Hs. lia.
      * destruct Hr as (Ht' & Hnt & _). rewrite Ht' in Hs. rewrite Hnt.
        by apply Ht.
  - cbn in Hstep. destruct (bool_decide (0 ≤ ms)); [| done].
    injection Hstep as <-. by split.
  - cbn in Hstep. injection Hstep as <-.
    unfold disconnectedCallback, clearInterval.
    destruct (timerId (component w)) as [i|]; [| by split].
    split; cbn; [done |]. intros k Hs. apply Ht.
    destruct (decide (i = k)) as [-> | Hne].
    + rewrite lookup_delete_eq in Hs. by destruct Hs.
    + by rewrite lookup_delete_ne in Hs.
Qed.

Lemma run_ids_below (evs : list Event) (w w' : World) :
  ids_below w → run evs w = Some w' → ids_below w'.
Proof.
  revert w. induction evs as [|ev evs IH]; intros w Hw; cbn.
  - by intros [= <-].
  - destruct (step ev w) as [w1|] eqn:Hstep; [| done].
    apply IH. by eapply step_ids_below.
Qed.

Lemma reachable_ids_below (w : World) : reachable w → ids_below w.
Proof.
  intros [evs Hrun]. eapply run_ids_below; [| done].
  split; intros k; cbn; rewrite lookup_empty; by intros [].
Qed.

Lemma step_pageSize (ev : Event) (w w' : World) :
  step ev w = Some w' →
  pageSize (component w')
  = match ev with
    | ClickLoadMore => pageSize (component w) + 50
    | _ => pageSize (component w)
    end.
Proof.
  intros Hstep. destruct ev.
  - apply step_Assign in Hstep. subst w'.
    destruct (performUpdate_fields (assigned l w).2
                (set_component (λ _, (assigned l w).1) w))
      as (_ & -> & _).
    cbn. by destruct (assigned_fields l w) as (_ & -> & _).
  - apply step_ClickLoadMore in Hstep. subst w'.
    by destruct (performUpdate_fields {["pageSize"]}
                   (set_component loadMore w)) as (_ & -> & _).
  - by apply step_TimerFires in Hstep as (due & _ & _ & ->).
  - apply step_Settles in Hstep as (req & by_ & _ & ->).
    by destruct (settle_world r by_
                   (set_inflight (delete q (inflight w)) (next_query w) w))
      as (_ & _ & _ & -> & _).
  - cbn in Hstep. destruct (bool_decide (0 ≤ ms)); [| done].
    by injection Hstep as <-.
  - cbn in Hstep. injection Hstep as <-.
    unfold disconnectedCallback, clearInterval.
    by destruct (timerId (component w)).
Qed.

(** A query that is in flight after a step and was not before is the one
    [getQueue] builds from the fields as the step leaves them. *)
Lemma step_new_query (ev : Event) (w w' : World) q req by_ :
  step ev w = Some w' →
  inflight w !! q = None →
  inflight w' !! q = Some (req, by_) →
  req = getQueue (component w').
Proof.
  intros Hstep Hold Hnew.
  destruct (refetches ev w) eqn:Hre.
  { destruct (step_refetch ev w w' Hre Hstep) as (_ & _ & Hi & _).
    rewrite Hi in Hnew.
    destruct (decide (next_query w = q)) as [<- | Hne].
    - rewrite lookup_insert_eq in Hnew. by simplify_eq.
    - rewrite lookup_insert_ne in Hnew by done. congruence. }
  destruct ev.
  - apply step_Assign in Hstep. subst w'. cbn in Hre.
    destruct (performUpdate_idle _
                (set_component (λ _, (assigned l w).1) w) Hre)
      as (_ & _ & Hi & _).
    rewrite Hi in Hnew. cbn in Hnew. congruence.
  - done.
  - apply step_TimerFires in Hstep as (due & _ & _ & ->). cbn in Hnew.
    destruct (decide (next_query w = q)) as [<- | Hne].
    + rewrite lookup_insert_eq in Hnew. by simplify_eq.
    + rewrite lookup_insert_ne in Hnew by done. congruence.
  - apply step_Settles in Hstep as (req0 & by0 & _ & ->).
    destruct (settle_world r by0
                (set_inflight (delete q0 (inflight w)) (next_query w) w))
      as (Hi & _).
    rewrite Hi in Hnew. cbn in Hnew.
    apply lookup_delete_Some in Hnew as [_ Hnew]. congruence.
  - cbn in Hstep. destruct (bool_decide (0 ≤ ms)); [| done].
    injection Hstep as <-. cbn in Hnew. congruence.
  - cbn in Hstep. injection Hstep as <-.
    unfold disconnectedCallback, clearInterval in Hnew.
    destruct (timerId (component w)); cbn in Hnew; congruence.
Qed.

(** A numeral [toString] writes stands for the integer it was written
    for. *)
Lemma decimal_value_toString (n : Z) :
  decimal_value (Number_toString n) = Some n.
Proof.
  unfold decimal_value, Number_toString.
  rewrite DecimalString.NilZero.isi.
  - cbn. f_equal. apply DecimalZ.of_to.
  - destruct n; cbn; [done | |done].
    intros [= Hnil]. by apply DecimalPos.Unsigned.to_uint_nonnil in Hnil.
  - destruct n; cbn; [done.. |].
    intros [= Hnil]. by apply DecimalPos.Unsigned.to_uint_nonnil in Hnil.
Qed.

(** C1: when a query in flight fails, the snapshot held stays as it was; no
    toast is added when the message of the error is [invalid_regex], and the
    failure toast is added for every other error. *)
Theorem failed_poll_keeps_snapshot (w : World) q req by_ (e : Error) :
  inflight w !! q = Some (req, by_) →
  ∃ w', step (Settles q (inr e)) w = Some w'
    ∧ queue (component w') = queue (component w)
    ∧ (message e = "invalid_regex" → toasts w' = toasts w)
    ∧ (message e ≠ "invalid_regex" →
         toasts w' = toasts w ++ [fetch_failed_toast]).
Proof.
  intros Hq. simpl. rewrite Hq. eexists. split; [done |].
  unfold_methods. simpl.
  destruct (bool_decide_reflect (message e ≠ "invalid_regex")) as [Hne|Heq];
    destruct by_; simpl; repeat split; try done.
  all: intros Hneq; by destruct Heq.
Qed.

(** C7: every query that a step sends asks for the window that starts at
    offset 0 and has the page size of that moment as its count: its [offset]
    is the numeral of 0 and its [count] a numeral that stands for the page
    size. A load-more action adds 50 to the page size and sends such a
    query, and no other event changes the page size. *)
Theorem pagination_grows_page_size (ev : Event) (w w' : World) :
  step ev w = Some w' →
  (∀ q req by_,
     inflight w !! q = None → inflight w' !! q = Some (req, by_) →
     req_params req
     = [("offset", "0");
        ("count", Number_toString (pageSize (component w')));
        ("regex", regex (component w'))]
     ∧ param "offset" (req_params req) ≫= decimal_value = Some 0
     ∧ param "count" (req_params req) ≫= decimal_value
       = Some (pageSize (component w')))
  ∧ match ev with
    | ClickLoadMore =>
        pageSize (component w') = pageSize (component w) + 50
        ∧ pageSize (component w) < pageSize (component w')
        ∧ inflight w' !! next_query w
          = Some (getQueue (component w'), ByUpdate)
    | _ => pageSize (component w') = pageSize (component w)
    end.
Proof.
  intros Hstep. split.
  - intros q req by_ Hold Hnew.
    rewrite (step_new_query ev w w' q req by_ Hstep Hold Hnew).
    split; [done |]. split; [done |].
    cbn. apply decimal_value_toString.
  - pose proof (step_pageSize ev w w' Hstep) as Hp.
    destruct ev; try done.
    repeat split; [done | lia |].
    destruct (step_refetch ClickLoadMore w w' eq_refl Hstep)
      as (_ & _ & -> & _).
    apply lookup_insert_eq.
Qed.

(** C2 as amended: a change of authState, orgId, crawlId, regex or page
    size cancels the timer the component remembers and then sends a new
    query built from the new values; the queries already in flight stay in
    flight, and the response of any query in flight, old or new, becomes the
    displayed snapshot when it arrives. *)
Theorem refetch_cancels_timer_only (ev : Event) (w w' : World) :
  reachable w →
  refetches ev w = true →
  step ev w = Some w' →
  (∀ id, timerId (component w) = Some id → timers w' !! id = None)
  ∧ inflight w' !! next_query w = Some (getQueue (component w'), ByUpdate)
  ∧ (∀ q r, inflight w !! q = Some r → inflight w' !! q = Some r)
  ∧ (∀ q r data, inflight w' !! q = Some r →
       ∃ w'', step (Settles q (inl data)) w' = Some w''
              ∧ queue (component w'') = Some data).
Proof.
  intros Hreach Hre Hstep.
  destruct (reachable_ids_below w Hreach) as [Hbelow _].
  destruct (step_refetch ev w w' Hre Hstep) as (Ht & _ & Hi & _).
  repeat split.
  - intros id Hid. rewrite Ht, Hid. apply lookup_delete_eq.
  - rewrite Hi. apply lookup_insert_eq.
  - intros q r Hq. rewrite Hi.
    assert (q < next_query w)%nat by eauto.
    rewrite lookup_insert_ne by lia. done.
  - intros q [req by_] data Hq.
    destruct (settle_world (inl data) by_
                (set_inflight (delete q (inflight w')) (next_query w') w'))
      as (_ & _ & _ & _ & _ & _ & _ & _ & Hqueue & _).
    unfold step. rewrite Hq. eexists. split; [reflexivity | exact Hqueue].
Qed.

Lemma run_passive_idle (evs : list Event) (w w' : World) :
  inflight w = ∅ → timers w = ∅ →
  Forall (λ ev, passive ev = true) evs →
  run evs w = Some w' →
  inflight w' = ∅ ∧ timers w' = ∅ ∧ component w' = component w.
Proof.
  intros Hi Ht Hall. revert w Hi Ht.
  induction Hall as [|ev evs Hev _ IH]; intros w Hi Ht; cbn.
  - by intros [= <-].
  - destruct (step ev w) as [w1|] eqn:Hstep; [| done].
    destruct ev; try done.
    + apply step_TimerFires in Hstep as (due & Hdue & _).
      by rewrite Ht, lookup_empty in Hdue.
    + apply step_Settles in Hstep as (req & by_ & Hq & _).
      by rewrite Hi, lookup_empty in Hq.
    + cbn in Hstep. destruct (bool_decide (0 ≤ ms)); [| done].
      injection Hstep as <-. intros Hrun.
      by destruct (IH (set_now (now w + ms) w) Hi Ht Hrun) as (-> & -> & ->).
Qed.

(** C3 as amended: a query that fails, whatever its error, arms no timer:
    the pending timers stay as they were and the query is no longer in
    flight. When it was the only poll under way, time alone brings no
    further poll; the next change of authState, orgId, crawlId, regex or page
    size sends a query again. *)
Theorem failed_poll_arms_nothing (w : World) q req by_ (e : Error) :
  inflight w !! q = Some (req, by_) →
  ∃ w', step (Settles q (inr e)) w = Some w'
    ∧ timers w' = timers w ∧ next_timer w' = next_timer w
    ∧ inflight w' = delete q (inflight w)
    ∧ (timers w = ∅ → inflight w = {[q := (req, by_)]} →
       (∀ evs w'', Forall (λ ev, passive ev = true) evs →
                   run evs w' = Some w'' →
                   inflight w'' = ∅ ∧ timers w'' = ∅)
       ∧ (∀ ev w'', refetches ev w' = true → step ev w' = Some w'' →
                    inflight w''
                    = {[next_query w' := (getQueue (component w''), ByUpdate)]})).
Proof.
  intros Hq.
  set (w1 := set_inflight (delete q (inflight w)) (next_query w) w).
  destruct (settle_world (inr e) by_ w1) as (Hi & _ & _ & _ & _ & Ht & Hnt & _).
  unfold step. rewrite Hq. fold w1. eexists. split; [reflexivity |].
  split; [exact Ht |]. split; [exact Hnt |]. split; [exact Hi |].
  intros Hnone Hsole.
  assert (inflight (fetchQueue_return by_ (fetchQueue_resume (inr e) w1)) = ∅)
    as Hidle.
  { rewrite Hi. cbn. rewrite Hsole. apply delete_singleton_eq. }
  split.
  - intros evs w'' Hall Hrun.
    destruct (run_passive_idle evs _ w'' Hidle) as (? & ? & _); try done.
    by rewrite Ht.
  - intros ev w'' Hre Hstep.
    destruct (step_refetch ev _ w'' Hre Hstep) as (_ & _ & -> & _).
    by rewrite Hidle.
Qed.

Lemma sequential_timers_cleared (w : World) :
  sequential w →
  match timerId (component w) with
  | Some i => delete i (timers w)
  | None => timers w
  end = ∅.
Proof.
  intros [_ Hkey]. apply map_empty. intros k.
  destruct (timerId (component w)) as [i|] eqn:Hid.
  - destruct (decide (i = k)) as [-> | Hne]; [apply lookup_delete_eq |].
    rewrite lookup_delete_ne by done.
    destruct (timers w !! k) eqn:Hk; [| done].
    assert (Some i = Some k) by eauto. congruence.
  - destruct (timers w !! k) eqn:Hk; [| done].
    assert (@None nat = Some k) by eauto. done.
Qed.

Lemma step_sequential (ev : Event) (w w' : World) :
  sequential w → calm ev w → step ev w = Some w' → sequential w'.
Proof.
  intros Hseq Hcalm Hstep.
  destruct (refetches ev w) eqn:Hre.
  { destruct (step_refetch ev w w' Hre Hstep) as (Ht & _ & Hi & _).
    rewrite (sequential_timers_cleared w Hseq) in Ht.
    rewrite (Hcalm Hre) in Hi.
    split.
    - rewrite Ht, Hi, map_size_empty.
      rewrite map_size_insert_None by apply lookup_empty.
      by rewrite map_size_empty.
    - intros id. rewrite Ht, lookup_empty. by intros []. }
  destruct Hseq as [Hsize Hkey].
  destruct ev.
  - apply step_Assign in Hstep. subst w'. cbn in Hre.
    set (w1 := set_component (λ _, (assigned l w).1) w).
    destruct (performUpdate_idle _ w1 Hre) as (Ht & _ & Hi & _).
    destruct (performUpdate_fields (assigned l w).2 w1)
      as (Hid & _).
    destruct (assigned_fields l w) as (Hid' & _).
    split.
    + by rewrite Ht, Hi.
    + intros id. rewrite Ht, Hid. cbn. rewrite Hid'. apply Hkey.
  - done.
  - apply step_TimerFires in Hstep as (due & Hdue & _ & ->).
    assert (size (timers w) ≠ 0%nat) as Hne
      by (apply map_size_ne_0_lookup_2 with id; eauto).
    assert (inflight w = ∅) as Hnone by (apply map_size_empty_inv; lia).
    assert (delete id (timers w) = ∅) as Hgone.
    { apply map_size_empty_inv. rewrite map_size_delete_Some by eauto. lia. }
    split; cbn.
    + rewrite Hgone, Hnone, map_size_empty.
      rewrite map_size_insert_None by apply lookup_empty.
      by rewrite map_size_empty.
    + intros k. rewrite Hgone, lookup_empty. by intros [].
  - apply step_Settles in Hstep as (req & by_ & Hq & ->).
    assert (size (inflight w) ≠ 0%nat) as Hne
      by (apply map_size_ne_0_lookup_2 with q; eauto).
    assert (timers w = ∅) as Hnone by (apply map_size_empty_inv; lia).
    assert (delete q (inflight w) = ∅) as Hgone.
    { apply map_size_empty_inv. rewrite map_size_delete_Some by eauto. lia. }
    set (w1 := set_inflight _ _ w).
    destruct (settle_world r by_ w1) as (Hi & _ & _ & _ & _ & Hr).
    destruct r as [data|e].
    + destruct Hr as (Ht & _ & Hid & _). split.
      * rewrite Hi, Ht. cbn. rewrite Hgone, Hnone, map_size_empty.
        rewrite map_size_insert_None by apply lookup_empty.
        by rewrite map_size_empty.
      * intros k. rewrite Ht, Hid. cbn. rewrite Hnone.
        destruct (decide (next_timer w = k)) as [<- | Hk]; [done |].
        rewrite lookup_insert_ne by done. rewrite lookup_empty. by intros [].
    + destruct Hr as (Ht & _ & Hid & _). split.
      * rewrite Hi, Ht. cbn. rewrite Hgone, Hnone, !map_size_empty. lia.
      * intros k. rewrite Ht. cbn. rewrite Hnone, lookup_empty. by intros [].
  - cbn in Hstep. destruct (bool_decide (0 ≤ ms)); [| done].
    injection Hstep as <-. by split.
  - cbn in Hstep. injection Hstep as <-.
    assert (sequential w) as Hseq by done.
    unfold disconnectedCallback, clearInterval.
    destruct (timerId (component w)) as [i|] eqn:Hid; [| exact Hseq].
    split; cbn.
    + rewrite map_size_delete. destruct (timers w !! i); cbn; lia.
    + intros k Hk. rewrite Hid. apply Hkey.
      destruct (decide (i = k)) as [-> | Hne].
      * rewrite lookup_delete_eq in Hk. by destruct Hk.
      * by rewrite lookup_delete_ne in Hk.
Qed.

Lemma run_sequential (evs : list Event) (w w' : World) :
  sequential w → calm_run evs w → run evs w = Some w' → sequential w'.
Proof.
  revert w. induction evs as [|ev evs IH]; intros w Hseq Hcalm; cbn.
  - by intros [= <-].
  - destruct Hcalm as [Hev Hrest].
    destruct (step ev w) as [w1|] eqn:Hstep; [| done].
    apply IH; [by eapply step_sequential | done].
Qed.

(** C4 as amended: in a session where authState, orgId, crawlId, regex and
    page size change only while no query is in flight, at most one poll is
    under way at any moment, in flight or waiting on its timer. A query that
    resolves leaves nothing in flight and one timer, due 5000 ms after that
    moment; the timer fires no earlier than it is due, and then one query
    leaves and no timer is pending. *)
Theorem calm_polls_are_sequential (evs : list Event) (w : World) :
  calm_run evs world0 →
  run evs world0 = Some w →
  (size (inflight w) + size (timers w) ≤ 1)%nat
  ∧ (∀ q data w', step (Settles q (inl data)) w = Some w' →
       inflight w' = ∅ ∧ timers w' = {[next_timer w := now w + 5000]})
  ∧ (∀ id w', step (TimerFires id) w = Some w' →
       (∃ due, timers w !! id = Some due ∧ due ≤ now w)
       ∧ timers w' = ∅
       ∧ inflight w'
         = {[next_query w := (getQueue (component w), ByTimer)]}).
Proof.
  intros Hcalm Hrun.
  assert (sequential w) as Hseq.
  { eapply run_sequential; [| done..].
    split; cbn; [rewrite !map_size_empty; lia |].
    intros id. rewrite lookup_empty. by intros []. }
  split; [apply Hseq |]. split.
  - intros q data w' Hstep.
    assert (sequential w') as [Hsize' _]
      by (by eapply step_sequential; [| | exact Hstep]).
    apply step_Settles in Hstep as (req & by_ & Hq & ->).
    destruct Hseq as [Hsize _].
    assert (size (inflight w) ≠ 0%nat) as Hne
      by (apply map_size_ne_0_lookup_2 with q; eauto).
    assert (timers w = ∅) as Hnone by (apply map_size_empty_inv; lia).
    set (w1 := set_inflight _ _ w) in *.
    destruct (settle_world (inl data) by_ w1) as (Hi & _ & _ & _ & _ & Ht & _).
    split.
    + rewrite Hi. cbn. apply map_size_empty_inv.
      rewrite map_size_delete_Some by eauto. lia.
    + rewrite Ht. cbn. by rewrite Hnone.
  - intros id w' Hstep.
    apply step_TimerFires in Hstep as (due & Hdue & Hle & ->).
    destruct Hseq as [Hsize _].
    assert (size (timers w) ≠ 0%nat) as Hne
      by (apply map_size_ne_0_lookup_2 with id; eauto).
    assert (inflight w = ∅) as Hnone by (apply map_size_empty_inv; lia).
    split; [by exists due |]. split; cbn.
    + apply map_size_empty_inv. rewrite map_size_delete_Some by eauto. lia.
    + by rewrite Hnone.
Qed.

End Polling.

(** ** The queue endpoint *)

Section StoreProperties.
Context `{Engine : RegExpEngine}.
Import QueueStore.

(** C9: for a crawl in the store and a non-empty pattern that compiles, every
    query succeeds, and its matched list is the list of all queued URLs the
    pattern matches: it is the same for any two offsets and counts, each of
    its elements is a queued URL of the crawl, and each queued URL the pattern
    matches is in it. *)
Theorem matched_is_global (store : gmap string (list string))
    (crawlId : string) (urls : list string) (pattern : string) (rx : RegExp)
    (offset1 count1 offset2 count2 : nat) :
  store !! crawlId = Some urls →
  pattern ≠ "" →
  newRegExp pattern = inl rx →
  ∃ s1 s2,
    snapshot store crawlId offset1 count1 pattern = inl s1
    ∧ snapshot store crawlId offset2 count2 pattern = inl s2
    ∧ matched s1 = matched s2
    ∧ (∀ u, u ∈ matched s1 ↔ u ∈ urls ∧ test rx u = true)
    ∧ matched s1 ⊆ urls.
Proof.
  intros Hst Hne Hrx. unfold snapshot. rewrite Hst, Hrx.
  rewrite bool_decide_eq_false_2 by done.
  eexists _, _. split; [done |]. split; [done |]. cbn.
  split; [done |]. split.
  - intros u. rewrite list_elem_of_filter. tauto.
  - intros u. rewrite list_elem_of_filter. tauto.
Qed.

End StoreProperties.

(** * Sample sessions, checked *)

(** Closed equations are settled by evaluation. *)
Ltac compute_eq := vm_compute; reflexivity.

Lemma failed_poll_keeps_snapshot_witness :
  inflight (after [open_viewer]) !! 0%nat
  = Some (sample_query "" 50, ByUpdate)
  ∧ ∃ w', step (Settles 0 (inr network_error)) (after [open_viewer]) = Some w'
      ∧ queue (component w') = None
      ∧ toasts w' = [fetch_failed_toast].
Proof.
  split; [compute_eq |].
  destruct (failed_poll_keeps_snapshot (after [open_viewer]) 0%nat
              (sample_query "" 50) ByUpdate network_error)
    as (w' & Hstep & Hqueue & _ & Htoast); [compute_eq |].
  exists w'. split; [exact Hstep |]. split.
  - rewrite Hqueue. compute_eq.
  - rewrite Htoast; [compute_eq | discriminate].
Defined.

(** C2 as stated fails: the user types a pattern while the first query is
    in flight. The second query leaves while the first is still in flight,
    and when the answer to the first arrives after the answer to the second,
    it replaces the displayed snapshot although it was asked for under the
    old pattern. *)
Lemma stale_response_is_applied :
  run [open_viewer; type_regex "ads"] world0
  = Some (after [open_viewer; type_regex "ads"])
  ∧ inflight (after [open_viewer; type_regex "ads"]) !! 0%nat
    = Some (sample_query "" 50, ByUpdate)
  ∧ inflight (after [open_viewer; type_regex "ads"]) !! 1%nat
    = Some (sample_query "ads" 50, ByUpdate)
  ∧ run typing_while_loading world0 = Some (after typing_while_loading)
  ∧ regex (component (after typing_while_loading)) = "ads"
  ∧ queue (component (after typing_while_loading)) = Some sample_snapshot
  ∧ ∃ w', step (Settles 0 (inl unfiltered_snapshot))
            (after typing_while_loading) = Some w'
      ∧ queue (component w') = Some unfiltered_snapshot.
Proof.
  split; [compute_eq |]. split; [compute_eq |].
  split; [compute_eq |]. split; [compute_eq |].
  split; [compute_eq |]. split; [compute_eq |].
  eexists. split; compute_eq.
Qed.

Lemma refetch_cancels_timer_only_witness :
  reachable (after [open_viewer; Settles 0 (inl sample_snapshot)])
  ∧ refetches (type_regex "ads")
      (after [open_viewer; Settles 0 (inl sample_snapshot)]) = true
  ∧ step (type_regex "ads")
      (after [open_viewer; Settles 0 (inl sample_snapshot)])
    = Some (after [open_viewer; Settles 0 (inl sample_snapshot);
                   type_regex "ads"])
  ∧ timers (after [open_viewer; Settles 0 (inl sample_snapshot);
                   type_regex "ads"]) !! 0%nat = None
  ∧ inflight (after [open_viewer; Settles 0 (inl sample_snapshot);
                     type_regex "ads"]) !! 1%nat
    = Some (sample_query "ads" 50, ByUpdate).
Proof.
  assert (reachable (after [open_viewer; Settles 0 (inl sample_snapshot)]))
    as Hreach.
  { exists [open_viewer; Settles 0 (inl sample_snapshot)]. compute_eq. }
  destruct (refetch_cancels_timer_only (type_regex "ads")
              (after [open_viewer; Settles 0 (inl sample_snapshot)])
              (after [open_viewer; Settles 0 (inl sample_snapshot);
                      type_regex "ads"]) Hreach)
    as (Htimer & Hnew & _); [compute_eq | compute_eq |].
  split; [exact Hreach |]. split; [compute_eq |]. split; [compute_eq |].
  split.
  - apply Htimer. compute_eq.
  - vm_compute in Hnew |- *. exact Hnew.
Defined.

(** C3 as stated fails: the first query of a session fails with a network
    error. The toast is shown, and nothing is left that would poll again:
    no timer is pending and no query is in flight. *)
Lemma polling_stops_after_failure :
  message network_error ≠ "invalid_regex"
  ∧ inflight (after [open_viewer]) !! 0%nat
    = Some (sample_query "" 50, ByUpdate)
  ∧ ∃ w', step (Settles 0 (inr network_error)) (after [open_viewer]) = Some w'
      ∧ toasts w' = [fetch_failed_toast]
      ∧ timers w' = ∅ ∧ inflight w' = ∅.
Proof.
  split; [discriminate |]. split; [compute_eq |].
  eexists. split; [compute_eq |]. split; [compute_eq |].
  split; compute_eq.
Qed.

Lemma failed_poll_arms_nothing_witness :
  inflight (after [open_viewer]) !! 0%nat
  = Some (sample_query "" 50, ByUpdate)
  ∧ ∃ w', step (Settles 0 (inr network_error)) (after [open_viewer]) = Some w'
      ∧ timers w' = ∅
      ∧ ∀ w'', run [Elapse 5000; Elapse 60000] w' = Some w'' →
               inflight w'' = ∅ ∧ timers w'' = ∅.
Proof.
  split; [compute_eq |].
  destruct (failed_poll_arms_nothing (after [open_viewer]) 0%nat
              (sample_query "" 50) ByUpdate network_error)
    as (w' & Hstep & Htimers & _ & _ & Hrest); [compute_eq |].
  destruct Hrest as [Hpassive _]; [compute_eq | compute_eq |].
  exists w'. split; [exact Hstep |]. split.
  - rewrite Htimers. compute_eq.
  - intros w'' Hrun. apply (Hpassive [Elapse 5000; Elapse 60000]); [| done].
    by repeat constructor.
Defined.

(** C4 as stated fails: the user types a pattern while the first query is in
    flight, and two queries of the one session are in flight together. *)
Lemma polls_overlap :
  run [open_viewer; type_regex "ads"] world0
  = Some (after [open_viewer; type_regex "ads"])
  ∧ size (inflight (after [open_viewer; type_regex "ads"])) = 2%nat.
Proof.
  split; compute_eq.
Qed.

Lemma calm_polls_are_sequential_witness :
  calm_run two_polls (world0 (Engine := LiteralEngine))
  ∧ run two_polls world0 = Some (after two_polls)
  ∧ (size (inflight (after two_polls)) + size (timers (after two_polls)) ≤ 1)%nat
  ∧ ∀ w', step (TimerFires 1) (after two_polls) = Some w' → timers w' = ∅.
Proof.
  assert (calm_run (Engine := LiteralEngine) two_polls world0) as Hcalm.
  { vm_compute. repeat split; by intros. }
  destruct (calm_polls_are_sequential two_polls (after two_polls) Hcalm)
    as (Hsize & _ & Hfire); [compute_eq |].
  split; [exact Hcalm |]. split; [compute_eq |]. split; [exact Hsize |].
  intros w' Hstep. by destruct (Hfire 1%nat w' Hstep) as (_ & Hnone & _).
Defined.

Lemma matched_excludes_excluded_witness :
  ∃ items it,
    renderContent (component (after viewer_with_rules))
    = QueueList items LoadMoreButton
    ∧ items !! 1%nat = Some it
    ∧ isExcluded (component (after viewer_with_rules)) (href it) = true
    ∧ link_class it = class_matched.
Proof.
  eexists _, _. split; [compute_eq |]. split; [compute_eq |].
  destruct (matched_excludes_excluded (component (after viewer_with_rules))
              _ LoadMoreButton 1%nat _
              ltac:(compute_eq) ltac:(compute_eq))
    as (q & url & Hq & Hu & Hhref & _ & Hmatch & _).
  split; [compute_eq |].
  apply Hmatch. vm_compute in Hq, Hu. simplify_eq. apply list_elem_of_here.
Defined.

Lemma isExcluded_any_pattern_witness :
  exclusionsRx (component (after [set_rules ["ads"; "x"]]))
  ≡ₚ exclusionsRx (component (after [set_rules ["x"; "ads"]]))
  ∧ isExcluded (component (after [set_rules ["x"; "ads"]]))
      "https://ads.com/1" = true
  ∧ isExcluded (component (after [set_rules ["ads"; "x"]]))
      "https://ads.com/1" = true.
Proof.
  assert (exclusionsRx (component (after [set_rules ["ads"; "x"]]))
          ≡ₚ exclusionsRx (component (after [set_rules ["x"; "ads"]])))
    as Hperm by (vm_compute; constructor).
  destruct (isExcluded_any_pattern
              (component (after [set_rules ["x"; "ads"]]))
              (component (after [set_rules ["ads"; "x"]]))
              "https://ads.com/1" Hperm) as [Hany Hsame].
  split; [exact Hperm |].
  assert (isExcluded (component (after [set_rules ["x"; "ads"]]))
            "https://ads.com/1" = true) as Hyes.
  { apply Hany. exists "ads". split; [| compute_eq].
    apply list_elem_of_further, list_elem_of_here. }
  split; [exact Hyes |]. by rewrite Hsame.
Defined.

Lemma pagination_grows_page_size_witness :
  step ClickLoadMore (after [open_viewer; Settles 0 (inl sample_snapshot)])
  = Some (after [open_viewer; Settles 0 (inl sample_snapshot); ClickLoadMore])
  ∧ pageSize (component (after [open_viewer; Settles 0 (inl sample_snapshot);
                                ClickLoadMore])) = 100
  ∧ inflight (after [open_viewer; Settles 0 (inl sample_snapshot);
                     ClickLoadMore]) !! 1%nat
    = Some (sample_query "" 100, ByUpdate)
  ∧ req_params (sample_query "" 100)
    = [("offset", "0"); ("count", "100"); ("regex", "")]
  ∧ param "count" (req_params (sample_query "" 100)) ≫= decimal_value
    = Some 100.
Proof.
  assert (step ClickLoadMore
            (after [open_viewer; Settles 0 (inl sample_snapshot)])
          = Some (after [open_viewer; Settles 0 (inl sample_snapshot);
                         ClickLoadMore])) as Hstep by compute_eq.
  assert (inflight (after [open_viewer; Settles 0 (inl sample_snapshot);
                           ClickLoadMore]) !! 1%nat
          = Some (sample_query "" 100, ByUpdate)) as Hquery by compute_eq.
  destruct (pagination_grows_page_size ClickLoadMore
              (after [open_viewer; Settles 0 (inl sample_snapshot)])
              (after [open_viewer; Settles 0 (inl sample_snapshot);
                      ClickLoadMore]) Hstep)
    as (Hnew & Hsize & _ & _).
  destruct (Hnew 1%nat (sample_query "" 100) ByUpdate ltac:(compute_eq) Hquery)
    as (_ & _ & Hcount).
  assert (pageSize (component (after [open_viewer;
                                      Settles 0 (inl sample_snapshot);
                                      ClickLoadMore])) = 100) as Hhundred.
  { rewrite Hsize. compute_eq. }
  split; [exact Hstep |]. split; [exact Hhundred |].
  split; [exact Hquery |]. split; [compute_eq |].
  rewrite Hcount. exact (f_equal Some Hhundred).
Defined.

Lemma updated_all_or_nothing_witness :
  has {["exclusions"]} "exclusions" = true
  ∧ exclusions (component (after [set_rules ["ads"; "x"]]))
    = Some ["ads"; "x"]
  ∧ (∃ c', updated {["exclusions"]}
             (component (after [set_rules ["ads"; "x"]])) = Returned c'
           ∧ exclusionsRx c' = ["ads"; "x"])
  ∧ exclusions (component (after [set_rules ["ads"; "("; "x"]]))
    = Some ["ads"; "("; "x"]
  ∧ ∃ good bad rest e,
      ["ads"; "("; "x"] = good ++ bad :: rest
      ∧ newRegExp (RegExpEngine := LiteralEngine) bad = inr e
      ∧ updated {["exclusions"]}
          (component (after [set_rules ["ads"; "("; "x"]]))
        = Thrown e (component (after [set_rules ["ads"; "("; "x"]])).
Proof.
  assert (has {["exclusions"]} "exclusions" = true) as Hhas by compute_eq.
  assert (exclusions (component (after [set_rules ["ads"; "x"]]))
          = Some ["ads"; "x"]) as Hgood by compute_eq.
  assert (exclusions (component (after [set_rules ["ads"; "("; "x"]]))
          = Some ["ads"; "("; "x"]) as Hbad by compute_eq.
  split; [exact Hhas |]. split; [exact Hgood |]. split.
  - destruct (updated_all_or_nothing {["exclusions"]}
                (component (after [set_rules ["ads"; "x"]]))
                ["ads"; "x"] Hhas Hgood) as [Hinstalls _].
    destruct Hinstalls as (rxs & c' & Hall & Hret & _ & Hrx & _).
    { intros p Hin.
      apply elem_of_cons in Hin as [-> | Hin];
        [eexists; compute_eq |].
      apply elem_of_cons in Hin as [-> | Hin];
        [eexists; compute_eq |].
      apply elem_of_nil in Hin. destruct Hin. }
    exists c'. split; [exact Hret |]. rewrite Hrx.
    inversion Hall as [|? rx1 ? rs1 Hc1 Hrest1]. subst.
    inversion Hrest1 as [|? rx2 ? rs2 Hc2 Hrest2]. subst.
    inversion Hrest2. subst.
    vm_compute in Hc1. vm_compute in Hc2.
    injection Hc1 as <-. injection Hc2 as <-. reflexivity.
  - split; [exact Hbad |].
    destruct (updated_all_or_nothing {["exclusions"]}
                (component (after [set_rules ["ads"; "("; "x"]]))
                ["ads"; "("; "x"] Hhas Hbad) as [_ Hthrows].
    destruct Hthrows
      as (good & bad & rest & e & Hsplit & _ & Hfails & Hthrown).
    { exists "(", "(". split; [| compute_eq].
      apply list_elem_of_further, list_elem_of_here. }
    exists good, bad, rest, e.
    split; [exact Hsplit |]. split; [exact Hfails | exact Hthrown].
Defined.

Lemma matched_is_global_witness :
  sample_store !! "c1"
  = Some ["https://a.com"; "https://b.com"; "https://ads.com/1"]
  ∧ newRegExp (RegExpEngine := LiteralEngine) "ads" = inl "ads"
  ∧ ∃ s1 s2,
      QueueStore.snapshot (Engine := LiteralEngine) sample_store "c1" 0 10 "ads"
      = inl s1
      ∧ QueueStore.snapshot (Engine := LiteralEngine) sample_store "c1" 0 1000
          "ads" = inl s2
      ∧ matched s1 = matched s2
      ∧ "https://ads.com/1" ∈ matched s1.
Proof.
  split; [compute_eq |]. split; [compute_eq |].
  destruct (matched_is_global (Engine := LiteralEngine) sample_store "c1"
              ["https://a.com"; "https://b.com"; "https://ads.com/1"]
              "ads" "ads" 0 10 0 1000)
    as (s1 & s2 & H1 & H2 & Heq & Hfull & _);
    [compute_eq | done | compute_eq |].
  exists s1, s2. repeat split; try done.
  apply Hfull. split; [| compute_eq].
  apply list_elem_of_further, list_elem_of_further, list_elem_of_here.
Defined.

Lemma highlight_is_membership_witness :
  ∃ items it,
    renderContent (component (after stale_after_typing))
    = QueueList items LoadMoreButton
    ∧ items !! 1%nat = Some it
    ∧ href it = "https://ads.com/1"
    ∧ regex (component (after stale_after_typing)) = "ads"
    ∧ link_class it ≠ class_matched.
Proof.
  eexists _, _. split; [compute_eq |]. split; [compute_eq |].
  destruct (highlight_is_membership (component (after stale_after_typing))
              _ LoadMoreButton 1%nat _
              ltac:(compute_eq) ltac:(compute_eq))
    as (q & url & Hq & Hu & _ & _ & Hnot).
  split; [compute_eq |]. split; [compute_eq |].
  vm_compute in Hq, Hu. simplify_eq.
  apply (Hnot "ads"); [compute_eq | compute_eq |].
  intros Hin. by apply elem_of_nil in Hin.
Defined.

(** * Further properties *)

(** ** What is shown *)

Section Shown.
Context `{Engine : RegExpEngine}.

Lemma fmap_href_imap (c : CrawlQueue) (q : ResponseData) (urls : list string) :
  href <$> imap (λ idx url, renderItem c q url idx) urls = urls.
Proof.
  apply list_eq. intros i.
  rewrite list_lookup_fmap, list_lookup_imap.
  by destruct (urls !! i).
Qed.

Lemma no_queue_is_no_count (x : string) : x +:+ " URLs" ≠ "No queue".
Proof.
  intros Heq.
  do 9 (destruct x as [|? x]; [by simplify_eq/= |]).
  by simplify_eq/=.
Qed.

(** X1: the list of URLs is shown exactly when the snapshot has a total
    other than 0. It then has one entry per result, in the order of the
    results and numbered from 1, and ends the queue exactly when the total
    equals the number of results; without such a snapshot the spinner is
    shown while loading and the empty notice otherwise. *)
Theorem list_follows_results (c : CrawlQueue) :
  (∀ items footer, renderContent c = QueueList items footer →
     ∃ q, queue c = Some q ∧ total q ≠ 0
       ∧ href <$> items = results q
       ∧ (∀ i it, items !! i = Some it → marker it = Z.of_nat i + 1)
       ∧ (footer = EndOfQueue ↔ total q = Z.of_nat (length (results q))))
  ∧ (∀ q, queue c = Some q → total q ≠ 0 →
       ∃ items footer, renderContent c = QueueList items footer)
  ∧ ((queue c = None ∨ ∃ q, queue c = Some q ∧ total q = 0) →
       renderContent c = if isLoading c then Spinner else NoPagesQueued).
Proof.
  unfold renderContent. split; [| split].
  - intros items footer Hr.
    destruct (queue c) as [q|]; [| by destruct (isLoading c)].
    destruct (bool_decide_reflect (total q = 0)) as [Hz|Hnz];
      [by destruct (isLoading c) |].
    injection Hr as <- <-. exists q.
    split; [done |]. split; [done |]. split; [apply fmap_href_imap |]. split.
    + intros i it Hi.
      by apply list_lookup_imap_Some in Hi as (url & _ & ->).
    + by destruct (bool_decide_reflect
                     (total q = Z.of_nat (length (results q)))).
  - intros q -> Hnz. rewrite bool_decide_eq_false_2 by done. eauto.
  - intros [-> | (q & -> & Hz)]; [done |].
    by rewrite bool_decide_eq_true_2.
Qed.

(** X2: the heading shows no badge before the first snapshot. With a
    snapshot, the queue badge reads "No queue" exactly when no list is shown
    below it, and the badge of the matched total is there exactly when
    [matchedTotal] is set and is not 0; of the snapshot the badges use the
    total alone, not the matched array. *)
Theorem badges_follow_totals (toLocaleString : Z → string) (c : CrawlQueue) :
  (renderBadge toLocaleString c = None ↔ queue c = None)
  ∧ (∀ b, renderBadge toLocaleString c = Some b →
       (queue_badge b = "No queue" ↔
          ∀ items footer, renderContent c ≠ QueueList items footer)
       ∧ (is_Some (matched_badge b) ↔
            ∃ n, matchedTotal c = Some n ∧ n ≠ 0))
  ∧ (∀ q q', total q = total q' →
       renderBadge toLocaleString (set_queue (Some q) c)
       = renderBadge toLocaleString (set_queue (Some q') c)).
Proof.
  unfold renderBadge, renderContent. split; [| split].
  - by destruct (queue c).
  - intros b Hb. destruct (queue c) as [q|]; [| done].
    injection Hb as <-. cbn. split.
    + destruct (bool_decide_reflect (total q = 0)) as [Hz|Hnz].
      * split; [| done]. intros _ items footer. by destruct (isLoading c).
      * split.
        -- destruct (bool_decide (1 < total q)); [| done].
           intros Heq. by apply no_queue_is_no_count in Heq.
        -- intros Hno. by destruct (Hno _ _ eq_refl).
    + destruct (matchedTotal c) as [n|].
      * destruct (bool_decide_reflect (n = 0)) as [Hz|Hnz].
        -- split; [by intros [] |]. intros (m & [= <-] & Hm). done.
        -- split; [eauto | by eexists].
      * split; [by intros [] | by intros (m & ? & _)].
  - intros q q' Heq. cbn. by rewrite Heq.
Qed.

End Shown.

Lemma list_follows_results_witness :
  ∃ items,
    renderContent (component (after viewer_with_rules))
    = QueueList items LoadMoreButton
    ∧ href <$> items = ["https://a.com"; "https://ads.com/1"].
Proof.
  destruct (list_follows_results (component (after viewer_with_rules)))
    as (Hlist & _ & _).
  assert (∃ items, renderContent (component (after viewer_with_rules))
                   = QueueList items LoadMoreButton) as (items & Hr)
    by (eexists; compute_eq).
  assert (queue (component (after viewer_with_rules)) = Some sample_snapshot)
    as Hheld by compute_eq.
  destruct (Hlist items LoadMoreButton Hr) as (q & Hq & _ & Hhref & _).
  rewrite Hheld in Hq. injection Hq as <-.
  exists items. split; [exact Hr | exact Hhref].
Defined.

Lemma badges_follow_totals_witness :
  ∃ b, renderBadge pretty (component (after viewer_with_rules)) = Some b
    ∧ queue_badge b = "3 URLs"
    ∧ queue_badge b ≠ "No queue"
    ∧ matched_badge b = None.
Proof.
  destruct (badges_follow_totals pretty (component (after viewer_with_rules)))
    as (_ & Hb & _).
  eexists. split; [compute_eq |].
  destruct (Hb _ ltac:(compute_eq)) as [Hno Hm].
  split; [compute_eq |]. split; [| compute_eq].
  intros Heq.
  destruct (proj1 Hno Heq _ _ ltac:(compute_eq)).
Defined.

(** ** The markdown editor *)

Section Editor.
Import MarkdownEditor.

(** X3: the first update cycle of a new markdown editor creates exactly one
    editor widget, with the initial value as its markdown, whether that value
    is empty or not, given that Lit reports a non-empty initial value as
    changed; the value of the element is then the initial value. *)
Theorem first_cycle_creates_one_editor (changed : gset string)
    (e : MarkdownEditor) :
  editors e = [] → value e = "" →
  (initialValue e ≠ "" → has changed "initialValue" = true) →
  editors (first_cycle changed e) = [initialValue e]
  ∧ value (first_cycle changed e) = initialValue e
  ∧ initialValue (first_cycle changed e) = initialValue e.
Proof.
  intros Hed Hval Hchanged. unfold first_cycle, firstUpdated, updated.
  destruct (bool_decide_reflect (initialValue e = "")) as [Hempty|Hfull].
  - cbn. rewrite bool_decide_eq_true_2 by done.
    rewrite andb_false_r. cbn. by rewrite Hed, Hval, Hempty.
  - rewrite (Hchanged Hfull), bool_decide_eq_false_2 by done.
    cbn. by rewrite Hed.
Qed.

(** X4: when the host assigns a new initial value later, a non-empty
    string that differs from the old one creates one more editor widget and
    replaces the value, also a value the user has typed; the empty string
    and the old string create no widget and leave the value alone. *)
Theorem reassign_initial_value (v : string) (e : MarkdownEditor) :
  initialValue (reassign v e) = v
  ∧ (v ≠ "" → v ≠ initialValue e →
       editors (reassign v e) = editors e ++ [v] ∧ value (reassign v e) = v)
  ∧ (v = "" ∨ v = initialValue e →
       editors (reassign v e) = editors e ∧ value (reassign v e) = value e).
Proof.
  unfold reassign, set_initialValue, updated.
  destruct (bool_decide_reflect (v = initialValue e)) as [Hsame|Hnew].
  - replace (has ∅ "initialValue") with false by (by vm_compute).
    cbn. by repeat split.
  - replace (has {["initialValue"]} "initialValue") with true
      by (by vm_compute).
    cbn. destruct (bool_decide_reflect (v = "")) as [Hempty|Hfull]; cbn.
    + by repeat split.
    + split; [done |]. split; [done |]. by intros [? | ?].
Qed.

End Editor.

Lemma first_cycle_creates_one_editor_witness :
  MarkdownEditor.editors
    (MarkdownEditor.first_cycle {["initialValue"]}
       (MarkdownEditor.set_initialValue "# Notes" MarkdownEditor.initial).1)
  = ["# Notes"]
  ∧ MarkdownEditor.editors
      (MarkdownEditor.first_cycle ∅ MarkdownEditor.initial) = [""].
Proof.
  assert (has ({["initialValue"]} : gset string) "initialValue" = true)
    as Hhas by compute_eq.
  split.
  - destruct (first_cycle_creates_one_editor {["initialValue"]}
                (MarkdownEditor.set_initialValue "# Notes"
                   MarkdownEditor.initial).1
                eq_refl eq_refl (λ _, Hhas)) as (Heds & _).
    exact Heds.
  - destruct (first_cycle_creates_one_editor ∅ MarkdownEditor.initial
                eq_refl eq_refl) as (Heds & _).
    + intros Hne. by destruct Hne.
    + exact Heds.
Defined.

Lemma reassign_initial_value_witness :
  MarkdownEditor.value
    (MarkdownEditor.reassign "# New"
       (MarkdownEditor.onChange "typed"
          (MarkdownEditor.first_cycle ∅ MarkdownEditor.initial))) = "# New"
  ∧ MarkdownEditor.value
      (MarkdownEditor.reassign ""
         (MarkdownEditor.onChange "typed"
            (MarkdownEditor.first_cycle ∅ MarkdownEditor.initial))) = "typed".
Proof.
  split.
  - destruct (reassign_initial_value "# New"
                (MarkdownEditor.onChange "typed"
                   (MarkdownEditor.first_cycle ∅ MarkdownEditor.initial)))
      as (_ & Hnew & _).
    by destruct Hnew as [_ ->].
  - destruct (reassign_initial_value ""
                (MarkdownEditor.onChange "typed"
                   (MarkdownEditor.first_cycle ∅ MarkdownEditor.initial)))
      as (_ & _ & Hkeep).
    by destruct Hkeep as [_ ->]; [left |].
Defined.

(** ** Accounts of a session *)

Section Accounts.
Context `{Engine : RegExpEngine}.




Lemma performUpdate_uncaught_toasts (changed : gset string) (w : World) :
  toasts (performUpdate changed w) = toasts w.
Proof.
  destruct (fetches changed) eqn:Hf.
  - by destruct (performUpdate_fetch changed w Hf) as (_ & _ & _ & _ & _ & ->).
  - by destruct (performUpdate_idle changed w Hf) as (_ & _ & _ & _ & _ & ->).
Qed.

Lemma step_queue (ev : Event) (w w' : World) :
  step ev w = Some w' →
  queue (component w')
  = match ev with
    | Settles _ (inl data) => Some data
    | _ => queue (component w)
    end.
Proof.
  intros Hstep. destruct ev.
  - apply step_Assign in Hstep. subst w'.
    destruct (performUpdate_fields (assigned l w).2
                (set_component (λ _, (assigned l w).1) w))
      as (_ & _ & _ & -> & _).
    cbn. by destruct (assigned_fields l w) as (_ & _ & ->).
  - apply step_ClickLoadMore in Hstep. subst w'.
    by destruct (performUpdate_fields {["pageSize"]}
                   (set_component loadMore w)) as (_ & _ & _ & -> & _).
  - by apply step_TimerFires in Hstep as (due & _ & _ & ->).
  - apply step_Settles in Hstep as (req & by_ & _ & ->).
    destruct (settle_world r by_
                (set_inflight (delete q (inflight w)) (next_query w) w))
      as (_ & _ & _ & _ & _ & Hr).
    destruct r as [data|e].
    + by destruct Hr as (_ & _ & _ & -> & _).
    + by destruct Hr as (_ & _ & _ & ->).
  - cbn in Hstep. destruct (bool_decide (0 ≤ ms)); [| done].
    by injection Hstep as <-.
  - cbn in Hstep. injection Hstep as <-.
    unfold disconnectedCallback, clearInterval.
    by destruct (timerId (component w)).
Qed.

Lemma step_toasts (ev : Event) (w w' : World) :
  step ev w = Some w' →
  toasts w' = toasts w ++ (if alarming ev then [fetch_failed_toast] else []).
Proof.
  intros Hstep. destruct ev; cbn [alarming]; rewrite ?app_nil_r.
  - apply step_Assign in Hstep. subst w'.
    by rewrite performUpdate_uncaught_toasts.
  - apply step_ClickLoadMore in Hstep. subst w'.
    by rewrite performUpdate_uncaught_toasts.
  - by apply step_TimerFires in Hstep as (due & _ & _ & ->).
  - apply step_Settles in Hstep as (req & by_ & _ & ->).
    destruct r as [data|e]; rewrite ?app_nil_r.
    + by destruct (settle_world (inl data) by_
                     (set_inflight (delete q (inflight w)) (next_query w) w))
        as (_ & _ & _ & _ & _ & _ & _ & _ & _ & ->).
    + unfold fetchQueue_resume.
      destruct (bool_decide (message e ≠ "invalid_regex"));
        rewrite ?app_nil_r; by destruct by_.
  - cbn in Hstep. destruct (bool_decide (0 ≤ ms)); [| done].
    by injection Hstep as <-.
  - cbn in Hstep. injection Hstep as <-.
    unfold disconnectedCallback, clearInterval.
    by destruct (timerId (component w)).
Qed.

(** X5: the snapshot held changes only when a query resolves, and then to
    the data of that query: after any events the component holds the
    snapshot it held before or the data of one of the queries that resolved
    meanwhile. No event clears it, a change of crawl, organisation or pattern
    included. *)
Theorem snapshot_replaced_only_by_response (evs : list Event) (w w' : World) :
  run evs w = Some w' →
  queue (component w') = queue (component w)
  ∨ ∃ q data, Settles q (inl data) ∈ evs
              ∧ queue (component w') = Some data.
Proof.
  revert w. induction evs as [|ev evs IH]; intros w; cbn.
  - intros [= <-]. by left.
  - destruct (step ev w) as [w1|] eqn:Hstep; [| done].
    intros Hrun. destruct (IH w1 Hrun) as [Hsame | (q & data & Hin & Hq)].
    + rewrite Hsame, (step_queue ev w w1 Hstep).
      destruct ev as [| | |q [data|e]| |]; try by left.
      right. exists q, data. split; [left | done].
    + right. exists q, data. split; [by right | done].
Qed.

(** X6: the page size is 50 more for each load-more action of the session
    and is changed by nothing else; it is never reset, also not when the
    component is pointed at another crawl. *)
Theorem page_size_counts_load_more (evs : list Event) (w w' : World) :
  run evs w = Some w' →
  pageSize (component w')
  = pageSize (component w)
    + 50 * Z.of_nat (length (List.filter is_load_more evs)).
Proof.
  revert w. induction evs as [|ev evs IH]; intros w; cbn.
  - intros [= <-]. lia.
  - destruct (step ev w) as [w1|] eqn:Hstep; [| done].
    intros Hrun. rewrite (IH w1 Hrun), (step_pageSize ev w w1 Hstep).
    destruct ev; cbn; lia.
Qed.

(** X7: the toasts of a session are one failure toast for each query that
    failed with an error other than the invalid-regex one, and nothing
    else. *)
Theorem toasts_count_failures (evs : list Event) (w w' : World) :
  run evs w = Some w' →
  toasts w'
  = toasts w
    ++ replicate (length (List.filter alarming evs)) fetch_failed_toast.
Proof.
  revert w. induction evs as [|ev evs IH]; intros w; cbn.
  - intros [= <-]. by rewrite app_nil_r.
  - destruct (step ev w) as [w1|] eqn:Hstep; [| done].
    intros Hrun. rewrite (IH w1 Hrun), (step_toasts ev w w1 Hstep).
    destruct (alarming ev); cbn; by rewrite <- ?app_assoc, ?app_nil_r.
Qed.

Lemma step_keeps_polls (ev : Event) (w w' : World) :
  ids_below w → keeps_polling ev = true → step ev w = Some w' →
  polls w' = polls w.
Proof.
  intros [Hq Ht] Hkeep Hstep. unfold polls.
  destruct ev as [| |id|q [data|e]|ms|]; try done.
  - apply step_TimerFires in Hstep as (due & Hdue & _ & ->). cbn.
    rewrite map_size_delete_Some by eauto.
    rewrite map_size_insert_None.
    + assert (size (timers w) ≠ 0%nat)
        by (apply map_size_ne_0_lookup_2 with id; eauto).
      lia.
    + destruct (inflight w !! next_query w) eqn:Hl; [| done].
      assert (next_query w < next_query w)%nat by eauto. lia.
  - apply step_Settles in Hstep as (req & by_ & Hin & ->).
    set (w1 := set_inflight _ _ w).
    destruct (settle_world (inl data) by_ w1)
      as (-> & _ & _ & _ & _ & -> & _).
    cbn. rewrite map_size_delete_Some by eauto.
    rewrite map_size_insert_None.
    + assert (size (inflight w) ≠ 0%nat)
        by (apply map_size_ne_0_lookup_2 with q; eauto).
      lia.
    + destruct (timers w !! next_timer w) eqn:Hl; [| done].
      assert (next_timer w < next_timer w)%nat by eauto. lia.
  - cbn in Hstep. destruct (bool_decide (0 ≤ ms)); [| done].
    by injection Hstep as <-.
Qed.

(** X8: while a session is left alone and its queries resolve, the number
    of polls under way, queries in flight plus timers pending, stays what it
    is: a poll is never lost, and polls that overlap once never merge into
    one. *)
Theorem polls_are_conserved (evs : list Event) (w w' : World) :
  reachable w →
  Forall (λ ev, keeps_polling ev = true) evs →
  run evs w = Some w' →
  polls w' = polls w.
Proof.
  intros Hreach Hall. apply reachable_ids_below in Hreach. revert w Hreach.
  induction Hall as [|ev evs Hev _ IH]; intros w Hbelow; cbn.
  - by intros [= <-].
  - destruct (step ev w) as [w1|] eqn:Hstep; [| done].
    intros Hrun. rewrite (IH w1); [| by eapply step_ids_below | done].
    by apply (step_keeps_polls ev).
Qed.

(** X15: a change of authState, orgId, crawlId, regex or page size adds one
    poll to those under way unless the timer the component remembers is
    still pending, in which case that timer is traded for the new query. A
    change that arrives while the remembered poll is in flight, or after its
    timer has fired, therefore leaves one more poll running than before. *)
Theorem refetch_adds_a_poll (ev : Event) (w w' : World) :
  reachable w →
  refetches ev w = true →
  step ev w = Some w' →
  ((∀ id, timerId (component w) = Some id → timers w !! id = None) →
     polls w' = S (polls w))
  ∧ ((∃ id, timerId (component w) = Some id ∧ is_Some (timers w !! id)) →
     polls w' = polls w).
Proof.
  intros Hreach Hre Hstep.
  destruct (reachable_ids_below w Hreach) as [Hq _].
  destruct (step_refetch ev w w' Hre Hstep) as (Ht & _ & Hi & _).
  assert (size (inflight w') = S (size (inflight w))) as Hsize.
  { rewrite Hi. apply map_size_insert_None.
    destruct (inflight w !! next_query w) eqn:Hl; [| done].
    assert (next_query w < next_query w)%nat by eauto. lia. }
  unfold polls. rewrite Hsize, Ht. split.
  - intros Hgone. destruct (timerId (component w)) as [id|]; [| done].
    by rewrite map_size_delete_None by eauto.
  - intros (id & -> & Hpending).
    rewrite map_size_delete_Some by done.
    assert (size (timers w) ≠ 0%nat)
      by (by apply map_size_ne_0_lookup_2 with id).
    lia.
Qed.

End Accounts.

Lemma snapshot_replaced_only_by_response_witness :
  run [Assign [Set_crawlId (Some "other")]; Elapse 1000]
    (after [open_viewer; Settles 0 (inl sample_snapshot)])
  = Some (after [open_viewer; Settles 0 (inl sample_snapshot);
                 Assign [Set_crawlId (Some "other")]; Elapse 1000])
  ∧ crawlId (component
               (after [open_viewer; Settles 0 (inl sample_snapshot);
                       Assign [Set_crawlId (Some "other")]; Elapse 1000]))
    = Some "other"
  ∧ queue (component
             (after [open_viewer; Settles 0 (inl sample_snapshot);
                     Assign [Set_crawlId (Some "other")]; Elapse 1000]))
    = Some sample_snapshot.
Proof.
  split; [compute_eq |]. split; [compute_eq |].
  destruct (snapshot_replaced_only_by_response
              [Assign [Set_crawlId (Some "other")]; Elapse 1000]
              (after [open_viewer; Settles 0 (inl sample_snapshot)])
              (after [open_viewer; Settles 0 (inl sample_snapshot);
                      Assign [Set_crawlId (Some "other")]; Elapse 1000]))
    as [-> | (q & data & Hin & _)]; [compute_eq | compute_eq |].
  apply elem_of_cons in Hin as [? | Hin]; [done |].
  apply elem_of_cons in Hin as [? | Hin]; [done |].
  by apply elem_of_nil in Hin.
Defined.

Lemma page_size_counts_load_more_witness :
  run [ClickLoadMore; Assign [Set_crawlId (Some "other")]]
    (after [open_viewer; Settles 0 (inl sample_snapshot)])
  = Some (after [open_viewer; Settles 0 (inl sample_snapshot);
                 ClickLoadMore; Assign [Set_crawlId (Some "other")]])
  ∧ pageSize (component
                (after [open_viewer; Settles 0 (inl sample_snapshot);
                        ClickLoadMore; Assign [Set_crawlId (Some "other")]]))
    = 100.
Proof.
  split; [compute_eq |].
  rewrite (page_size_counts_load_more
             [ClickLoadMore; Assign [Set_crawlId (Some "other")]]
             (after [open_viewer; Settles 0 (inl sample_snapshot)])
             (after [open_viewer; Settles 0 (inl sample_snapshot);
                     ClickLoadMore; Assign [Set_crawlId (Some "other")]]));
    compute_eq.
Defined.

Lemma toasts_count_failures_witness :
  run [open_viewer; Settles 0 (inr network_error); type_regex "(";
       Settles 1 (inr {| message := "invalid_regex" |})] world0
  = Some (after [open_viewer; Settles 0 (inr network_error); type_regex "(";
                 Settles 1 (inr {| message := "invalid_regex" |})])
  ∧ toasts (after [open_viewer; Settles 0 (inr network_error); type_regex "(";
                   Settles 1 (inr {| message := "invalid_regex" |})])
    = [fetch_failed_toast].
Proof.
  split; [compute_eq |].
  rewrite (toasts_count_failures
             [open_viewer; Settles 0 (inr network_error); type_regex "(";
              Settles 1 (inr {| message := "invalid_regex" |})]
             world0
             (after [open_viewer; Settles 0 (inr network_error);
                     type_regex "(";
                     Settles 1 (inr {| message := "invalid_regex" |})]));
    compute_eq.
Defined.

Lemma polls_are_conserved_witness :
  reachable (after [open_viewer; type_regex "ads"])
  ∧ polls (after [open_viewer; type_regex "ads"]) = 2%nat
  ∧ run [Settles 1 (inl sample_snapshot); Settles 0 (inl unfiltered_snapshot);
         Elapse 5000; TimerFires 0; TimerFires 1]
      (after [open_viewer; type_regex "ads"])
    = Some (after [open_viewer; type_regex "ads";
                   Settles 1 (inl sample_snapshot);
                   Settles 0 (inl unfiltered_snapshot);
                   Elapse 5000; TimerFires 0; TimerFires 1])
  ∧ polls (after [open_viewer; type_regex "ads";
                  Settles 1 (inl sample_snapshot);
                  Settles 0 (inl unfiltered_snapshot);
                  Elapse 5000; TimerFires 0; TimerFires 1]) = 2%nat.
Proof.
  assert (reachable (after [open_viewer; type_regex "ads"])) as Hreach.
  { exists [open_viewer; type_regex "ads"]. compute_eq. }
  split; [exact Hreach |]. split; [compute_eq |]. split; [compute_eq |].
  rewrite (polls_are_conserved
             [Settles 1 (inl sample_snapshot);
              Settles 0 (inl unfiltered_snapshot);
              Elapse 5000; TimerFires 0; TimerFires 1]
             (after [open_viewer; type_regex "ads"])
             (after [open_viewer; type_regex "ads";
                     Settles 1 (inl sample_snapshot);
                     Settles 0 (inl unfiltered_snapshot);
                     Elapse 5000; TimerFires 0; TimerFires 1]) Hreach).
  - compute_eq.
  - by repeat constructor.
  - compute_eq.
Defined.

Lemma refetch_adds_a_poll_witness :
  reachable (after [open_viewer])
  ∧ refetches (type_regex "ads") (after [open_viewer]) = true
  ∧ step (type_regex "ads") (after [open_viewer])
    = Some (after [open_viewer; type_regex "ads"])
  ∧ polls (after [open_viewer]) = 1%nat
  ∧ polls (after [open_viewer; type_regex "ads"]) = 2%nat.
Proof.
  assert (reachable (after [open_viewer])) as Hreach.
  { exists [open_viewer]. vm_compute. reflexivity. }
  assert (polls (after [open_viewer]) = 1%nat) as Hone
    by compute_eq.
  destruct (refetch_adds_a_poll (type_regex "ads") (after [open_viewer])
              (after [open_viewer; type_regex "ads"]) Hreach)
    as [Hadds _]; [compute_eq | compute_eq |].
  split; [exact Hreach |]. split; [compute_eq |].
  split; [compute_eq |]. split; [exact Hone |].
  rewrite Hadds, Hone; [reflexivity |].
  intros id Hid. vm_compute in Hid. discriminate Hid.
Defined.

(** ** Loading and leaving *)

Section Loading.
Context `{Engine : RegExpEngine}.





(** X10: in such a session, disconnecting the element while no query is in
    flight ends the polling for good: no timer is pending afterwards, and
    time alone brings no query and changes nothing in the component. *)
Theorem disconnect_ends_idle_polling (evs : list Event) (w : World) :
  calm_run evs world0 →
  run evs world0 = Some w →
  inflight w = ∅ →
  ∃ w', step Disconnect w = Some w'
    ∧ inflight w' = ∅ ∧ timers w' = ∅
    ∧ ∀ evs' w'', Forall (λ ev, passive ev = true) evs' →
                  run evs' w' = Some w'' →
                  inflight w'' = ∅ ∧ timers w'' = ∅
                  ∧ component w'' = component w.
Proof.
  intros Hcalm Hrun Hnone.
  assert (sequential w) as Hseq.
  { eapply run_sequential; [| done..].
    split; cbn; [rewrite !map_size_empty; lia |].
    intros id. rewrite lookup_empty. by intros []. }
  pose proof (sequential_timers_cleared w Hseq) as Hclear.
  exists (disconnectedCallback w). split; [done |].
  assert (inflight (disconnectedCallback w) = ∅
          ∧ timers (disconnectedCallback w) = ∅
          ∧ component (disconnectedCallback w) = component w)
    as (Hi & Ht & Hc).
  { unfold disconnectedCallback, clearInterval.
    by destruct (timerId (component w)). }
  split; [done |]. split; [done |].
  intros evs' w'' Hall Hrun'. rewrite <- Hc.
  by apply (run_passive_idle evs').
Qed.

(** X11: a query that is in flight when the element is disconnected is not
    stopped. When it resolves its data becomes the snapshot and the next poll
    is armed; 5000 ms later that timer fires and the next query leaves, so
    the polling goes on after the element has left the page. *)
Theorem disconnect_misses_query_in_flight (w : World) q req by_
    (data : ResponseData) :
  inflight w !! q = Some (req, by_) →
  ∃ w1 w2,
    run [Disconnect; Settles q (inl data)] w = Some w1
    ∧ queue (component w1) = Some data
    ∧ timers w1 !! next_timer w = Some (now w + 5000)
    ∧ run [Elapse 5000; TimerFires (next_timer w)] w1 = Some w2
    ∧ inflight w2 !! next_query w = Some (getQueue (component w2), ByTimer).
Proof.
  intros Hq.
  assert (inflight (disconnectedCallback w) = inflight w
          ∧ next_query (disconnectedCallback w) = next_query w
          ∧ next_timer (disconnectedCallback w) = next_timer w
          ∧ now (disconnectedCallback w) = now w) as (Hi & Hnq & Hnt & Hnow).
  { unfold disconnectedCallback, clearInterval.
    by destruct (timerId (component w)). }
  set (w0 := set_inflight (delete q (inflight (disconnectedCallback w)))
               (next_query (disconnectedCallback w)) (disconnectedCallback w)).
  destruct (settle_world (inl data) by_ w0)
    as (_ & Hnq1 & Hnow1 & _ & _ & Ht1 & _ & _ & Hqueue & _).
  set (w1 := fetchQueue_return by_ (fetchQueue_resume (inl data) w0)) in *.
  assert (timers w1 !! next_timer w = Some (now w + 5000)) as Hdue.
  { rewrite Ht1. cbn. rewrite Hnt, Hnow. apply lookup_insert_eq. }
  assert (inflight (disconnectedCallback w) !! q = Some (req, by_)) as Hq'
    by (by rewrite Hi).
  eexists w1, _. split.
  { cbn [run]. unfold step at 1. cbn [run]. unfold step.
    by rewrite Hq'. }
  split; [done |]. split; [done |]. split.
  { cbn [run]. unfold step at 1.
    rewrite bool_decide_eq_true_2 by lia. cbn [run]. unfold step.
    cbn [timers set_now now]. rewrite Hdue.
    rewrite bool_decide_eq_true_2 by (rewrite Hnow1; cbn; lia).
    done. }
  cbn. rewrite Hnq1. cbn. rewrite Hnq. apply lookup_insert_eq.
Qed.

End Loading.


Lemma disconnect_ends_idle_polling_witness :
  calm_run [open_viewer; Settles 0 (inl sample_snapshot)]
    (world0 (Engine := LiteralEngine))
  ∧ size (timers (after [open_viewer; Settles 0 (inl sample_snapshot)]))
    = 1%nat
  ∧ ∃ w', step Disconnect (after [open_viewer; Settles 0 (inl sample_snapshot)])
          = Some w'
      ∧ timers w' = ∅
      ∧ step (TimerFires 0) w' = None.
Proof.
  assert (calm_run (Engine := LiteralEngine)
            [open_viewer; Settles 0 (inl sample_snapshot)] world0) as Hcalm.
  { vm_compute. repeat split; by intros. }
  split; [exact Hcalm |]. split; [compute_eq |].
  destruct (disconnect_ends_idle_polling
              [open_viewer; Settles 0 (inl sample_snapshot)]
              (after [open_viewer; Settles 0 (inl sample_snapshot)]) Hcalm)
    as (w' & Hstep & _ & Ht & _); [compute_eq | compute_eq |].
  exists w'. split; [exact Hstep |]. split; [exact Ht |].
  cbn. by rewrite Ht, lookup_empty.
Defined.

Lemma disconnect_misses_query_in_flight_witness :
  inflight (after [open_viewer]) !! 0%nat
  = Some (sample_query "" 50, ByUpdate)
  ∧ ∃ w1 w2,
      run [Disconnect; Settles 0 (inl sample_snapshot)] (after [open_viewer])
      = Some w1
      ∧ run [Elapse 5000; TimerFires 0] w1 = Some w2
      ∧ ∃ req, inflight w2 !! 1%nat = Some (req, ByTimer).
Proof.
  split; [compute_eq |].
  destruct (disconnect_misses_query_in_flight (after [open_viewer]) 0%nat
              (sample_query "" 50) ByUpdate sample_snapshot)
    as (w1 & w2 & Hrun1 & _ & _ & Hrun2 & Hq); [compute_eq |].
  assert (next_timer (after [open_viewer]) = 0%nat) as Hzero by compute_eq.
  assert (next_query (after [open_viewer]) = 1%nat) as Hone by compute_eq.
  rewrite Hzero in Hrun2. rewrite Hone in Hq.
  exists w1, w2. split; [exact Hrun1 |]. split; [exact Hrun2 |].
  eexists. exact Hq.
Defined.

(** ** Setting the exclusion rules *)

Section Rules.
Context `{Engine : RegExpEngine}.




(** What an update cycle does to the matcher and to the errors nobody
    catches, whether it fetches or not. *)
Lemma performUpdate_updated (ch : gset string) (w : World) :
  match updated ch (component w) with
  | Returned c' =>
      exclusionsRx (component (performUpdate ch w)) = exclusionsRx c'
      ∧ exclusions (component (performUpdate ch w)) = exclusions c'
      ∧ uncaught (performUpdate ch w) = uncaught w
  | Thrown e c' =>
      exclusionsRx (component (performUpdate ch w)) = exclusionsRx c'
      ∧ exclusions (component (performUpdate ch w)) = exclusions c'
      ∧ uncaught (performUpdate ch w) = uncaught w ++ [e]
  end.
Proof.
  unfold performUpdate, willUpdate, didUpdate, fetchOnUpdate_call,
    clearInterval, fetchOnUpdate_resume, fetchQueue_call.
  destruct (fetches ch); [destruct (timerId (component w)) |];
    cbn -[updated]; by destruct (updated ch (component w)).
Qed.

Lemma step_set_exclusions (v : option (list string)) (w w' : World) :
  step (Assign [Set_exclusions v]) w = Some w' →
  match v with
  | Some pats =>
      match map_newRegExp pats with
      | inl rxs => exclusionsRx (component w') = rxs ∧ uncaught w' = uncaught w
      | inr e => exclusionsRx (component w') = exclusionsRx (component w)
                 ∧ uncaught w' = uncaught w ++ [e]
      end
  | None => exclusionsRx (component w') = [] ∧ uncaught w' = uncaught w
  end
  ∧ exclusions (component w') = v.
Proof.
  intros Hstep. apply step_Assign in Hstep. subst w'.
  unfold assigned, assign_all. cbn [foldl assign fst snd].
  set (ch := ({["exclusions"]} ∪ pending_changes (hasUpdated w) : gset string)).
  assert (has ch "exclusions" = true) as Hhas.
  { apply bool_decide_eq_true_2, elem_of_union. left.
    by apply elem_of_singleton. }
  match goal with
  | |- context [performUpdate ch ?w1] =>
      pose proof (performUpdate_updated ch w1) as Hup
  end.
  unfold updated in Hup. rewrite Hhas in Hup. cbn in Hup.
  destruct v as [pats|]; [| by destruct Hup as (-> & -> & ->)].
  destruct (map_newRegExp pats); by destruct Hup as (-> & -> & ->).
Qed.

(** X13: once the host has assigned exclusion rules that all compile, a URL
    counts as excluded exactly when one of the assigned patterns matches it;
    after an empty list, or when the rules are taken away, no URL does. *)
Theorem rules_take_effect (v : option (list string)) (w w' : World) :
  step (Assign [Set_exclusions v]) w = Some w' →
  (∀ p, p ∈ default [] v → ∃ rx, newRegExp p = inl rx) →
  ∀ url,
    isExcluded (component w') url = true ↔
    ∃ p rx, p ∈ default [] v ∧ newRegExp p = inl rx ∧ test rx url = true.
Proof.
  intros Hstep Hall url.
  destruct (step_set_exclusions v w w' Hstep) as [Hrx _].
  unfold isExcluded. rewrite isExcluded_loop_true.
  destruct v as [pats|]; cbn in *.
  - destruct (map_newRegExp pats) as [rxs|e] eqn:Hmap.
    + destruct Hrx as [-> _]. apply map_newRegExp_inl in Hmap. split.
      * intros (rx & Hin & Ht).
        apply list_elem_of_lookup in Hin as (i & Hi).
        destruct (Forall2_lookup_r _ _ _ _ _ Hmap Hi) as (p & Hp & Hc).
        exists p, rx. split; [| done]. apply list_elem_of_lookup. eauto.
      * intros (p & rx & Hin & Hc & Ht).
        apply list_elem_of_lookup in Hin as (i & Hi).
        destruct (Forall2_lookup_l _ _ _ _ _ Hmap Hi) as (rx' & Hrx' & Hc').
        exists rx. split; [| done].
        apply list_elem_of_lookup. exists i. congruence.
    + apply map_newRegExp_inr in Hmap as (good & bad & rest & -> & _ & Hbad).
      destruct (Hall bad) as (rx & Hrx'); [| congruence].
      apply elem_of_app. right. left.
  - destruct Hrx as [-> _]. split.
    + intros (rx & Hin & _). by apply elem_of_nil in Hin.
    + intros (p & rx & Hin & _). by apply elem_of_nil in Hin.
Qed.

(** X14: when the host assigns exclusion rules of which one does not
    compile, the component holds the new rules while its matcher is the old
    one, so every URL is classified as before; the error of the first
    pattern that does not compile is thrown out of the update cycle and is
    not shown to the user. *)
Theorem bad_rules_leave_old_matcher (pats : list string) (w w' : World) :
  step (Assign [Set_exclusions (Some pats)]) w = Some w' →
  (∃ p e, p ∈ pats ∧ newRegExp p = inr e) →
  exclusions (component w') = Some pats
  ∧ exclusionsRx (component w') = exclusionsRx (component w)
  ∧ (∀ url, isExcluded (component w') url = isExcluded (component w) url)
  ∧ toasts w' = toasts w
  ∧ ∃ good bad rest e,
      pats = good ++ bad :: rest
      ∧ Forall (λ p, ∃ rx, newRegExp p = inl rx) good
      ∧ newRegExp bad = inr e
      ∧ uncaught w' = uncaught w ++ [e].
Proof.
  intros Hstep (p & e & Hin & Hp).
  pose proof (step_toasts _ _ _ Hstep) as Htoasts.
  cbn in Htoasts. rewrite app_nil_r in Htoasts.
  destruct (step_set_exclusions (Some pats) w w' Hstep) as [Hrx Hex].
  destruct (map_newRegExp pats) as [rxs|e'] eqn:Hmap.
  - apply map_newRegExp_inl in Hmap.
    apply list_elem_of_lookup in Hin as (i & Hi).
    destruct (Forall2_lookup_l _ _ _ _ _ Hmap Hi) as (rx & _ & Hc).
    congruence.
  - destruct Hrx as [Hrx Hun].
    apply map_newRegExp_inr in Hmap as (good & bad & rest & -> & Hg & Hb).
    split; [done |]. split; [done |]. split.
    { intros url. unfold isExcluded. by rewrite Hrx. }
    split; [done |]. by exists good, bad, rest, e'.
Qed.

End Rules.


Lemma rules_take_effect_witness :
  step (set_rules ["ads"; "tracker"]) (after [open_viewer])
  = Some (after [open_viewer; set_rules ["ads"; "tracker"]])
  ∧ isExcluded (component (after [open_viewer; set_rules ["ads"; "tracker"]]))
      "https://ads.com/1" = true.
Proof.
  assert (∀ p, p ∈ default [] (Some ["ads"; "tracker"]) →
               ∃ rx, newRegExp (RegExpEngine := LiteralEngine) p = inl rx)
    as Hall.
  { intros p Hin. cbn [default] in Hin.
    apply elem_of_cons in Hin as [-> | Hin];
      [eexists; compute_eq |].
    apply elem_of_cons in Hin as [-> | Hin];
      [eexists; compute_eq |].
    apply elem_of_nil in Hin. destruct Hin. }
  assert (step (set_rules ["ads"; "tracker"]) (after [open_viewer])
          = Some (after [open_viewer; set_rules ["ads"; "tracker"]])) as Hstep
    by compute_eq.
  split; [exact Hstep |].
  apply (rules_take_effect (Some ["ads"; "tracker"])
           (after [open_viewer])
           (after [open_viewer; set_rules ["ads"; "tracker"]]) Hstep Hall).
  exists "ads", "ads".
  split; [apply list_elem_of_here |].
  split; compute_eq.
Defined.

Lemma bad_rules_leave_old_matcher_witness :
  step (set_rules ["tracker"; "("])
    (after [open_viewer; set_rules ["ads"]])
  = Some (after [open_viewer; set_rules ["ads"]; set_rules ["tracker"; "("]])
  ∧ exclusions
      (component
         (after [open_viewer; set_rules ["ads"]; set_rules ["tracker"; "("]]))
    = Some ["tracker"; "("]
  ∧ exclusionsRx
      (component
         (after [open_viewer; set_rules ["ads"]; set_rules ["tracker"; "("]]))
    = ["ads"].
Proof.
  assert (step (set_rules ["tracker"; "("])
            (after [open_viewer; set_rules ["ads"]])
          = Some (after [open_viewer; set_rules ["ads"];
                         set_rules ["tracker"; "("]])) as Hstep
    by compute_eq.
  destruct (bad_rules_leave_old_matcher ["tracker"; "("]
              (after [open_viewer; set_rules ["ads"]])
              (after [open_viewer; set_rules ["ads"];
                      set_rules ["tracker"; "("]]) Hstep)
    as (Hex & Hrx & _).
  { exists "(", "(". split; [| compute_eq].
    apply list_elem_of_further, list_elem_of_here. }
  split; [exact Hstep |]. split; [exact Hex |].
  rewrite Hrx. compute_eq.
Defined.
